(** * Maestro Studio: the REPL command queue ([ReplContext.tsx])

    A shallow embedding of the command-queue engine of
    [maestro-studio/web/src/context/ReplContext.tsx] and the properties of
    its operations: status transitions, delete, reorder, sequential run with
    abort-on-failure, mock interleaving, submit-with-validation and the
    persistence round trip.  The toggle control of
    [components/design-system/toggle.tsx] is modelled in [Module Toggle].

    Modelling conventions.
    - React state ([repl], [errorMessage], [isMockGenerationEnabled]) and the
      [localStorage] slot live in a [World] record; [setRepl updater] applies
      the updater to the previous state, and the [useEffect] of
      [ReplProvider] re-serialises the queue after it.
    - [async] functions are computations in a state-and-exception monad
      [Async]: a rejected promise / thrown error is [Rejected e], and
      [try { .. } catch (e) { .. }] is [try_catch].  Every [await] is run to
      completion before the next statement (no interleaving of other
      operations); the fixed [setTimeout] delays carry no state and are
      omitted.  Every updater passed to [setRepl] runs exactly once, so
      the in-place [splice] of [runCommand] on [prevRepl.commands] is an
      ordinary list insertion.
    - The remote API ([../api/api]), the [yaml] package, the built-in [JSON]
      text codec and [uuidv4] are collaborators outside this file; they are
      the fields of the classes [ExecutionClient] and [Codecs].  Calls to the
      API are recorded in [api_trace]. *)

From Stdlib Require Import ZArith String List Lia SpecFloat DecimalString
  DecimalNat.
From stdpp Require Import base list strings gmap.

Open Scope string_scope.
Open Scope list_scope.
Set Warnings "-register-all".

(** ** JavaScript values (what [JSON.parse] / [YAML.parse] return) *)

Inductive JsValue : Type :=
| JUndefined
| JNull
| JBool (b : bool)
| JNum (n : spec_float)
| JStr (s : string)
| JArr (elems : list JsValue)
| JObj (props : list (string * JsValue)).

(** [Array.isArray(v)] *)
Definition isArray (v : JsValue) : bool :=
  match v with JArr _ => true | _ => false end.

(** JavaScript truthiness: [undefined], [null], [false], [0], [NaN] and the
    empty string are falsy. *)
Definition truthy (v : JsValue) : bool :=
  match v with
  | JUndefined | JNull => false
  | JBool b => b
  | JNum (S754_zero _) | JNum S754_nan => false
  | JNum _ => true
  | JStr s => negb (String.eqb s "")
  | JArr _ | JObj _ => true
  end.

(** [a || b] *)
Definition js_or (a b : JsValue) : JsValue := if truthy a then a else b.

(** Own-property lookup in an object literal. *)
Fixpoint lookupProp (k : string) (props : list (string * JsValue)) : JsValue :=
  match props with
  | [] => JUndefined
  | (k', v) :: props' => if String.eqb k k' then v else lookupProp k props'
  end.

(** A thrown value; only its [message] is ever read ([e.message]). *)
Record JsError : Type := { message : option string }.

Inductive Outcome (A : Type) : Type :=
| Resolved (a : A)
| Rejected (e : JsError).
Arguments Resolved {A} a.
Arguments Rejected {A} e.

Definition TypeError (msg : string) : JsError := {| message := Some msg |}.

(** [v.k]: reading a property of [null] or [undefined] throws a TypeError;
    primitives and arrays have none of the property names read in this
    program ([runScript], [file], [env], [mode], [api], [behavior]). *)
Definition getProp (v : JsValue) (k : string) : Outcome JsValue :=
  match v with
  | JUndefined | JNull => Rejected (TypeError "Cannot read properties of null or undefined")
  | JObj props => Resolved (lookupProp k props)
  | _ => Resolved JUndefined
  end.

(** [v?.k] *)
Definition getPropOpt (v : JsValue) (k : string) : JsValue :=
  match v with
  | JObj props => lookupProp k props
  | _ => JUndefined
  end.

(** ** Command model ([../helpers/models], as used by the context) *)

Inductive ReplCommandStatus : Type :=
| pending | running | success | error | canceled.

Record ReplCommand : Type := {
  id : string;
  status : ReplCommandStatus;
  yaml : string
}.

Record Repl : Type := { commands : list ReplCommand }.

#[global] Instance ReplCommandStatus_eq_dec : EqDecision ReplCommandStatus.
Proof. solve_decision. Defined.

#[global] Instance ReplCommand_eq_dec : EqDecision ReplCommand.
Proof. solve_decision. Defined.

(** [const initialState: Repl = { commands: [] }] *)
Definition initialState : Repl := {| commands := [] |}.

(** ** Array primitives used by the queue operations *)

(** [arr.findIndex(p)]: the first index satisfying [p], or [-1]. *)
Fixpoint findIndex_from {A : Type} (p : A → bool) (i : Z) (arr : list A) : Z :=
  match arr with
  | [] => (-1)%Z
  | x :: arr' => if p x then i else findIndex_from p (i + 1)%Z arr'
  end.

Definition findIndex {A : Type} (p : A → bool) (arr : list A) : Z :=
  findIndex_from p 0%Z arr.

(** [arr.splice(start, 0, item)]: a negative [start] counts from the end
    (clamped at 0), a [start] beyond the end is clamped to the length. *)
Definition splice_insert {A : Type} (start : Z) (item : A) (arr : list A) : list A :=
  let len := Z.of_nat (length arr) in
  let actualStart :=
    if (start <? 0)%Z then Z.max (len + start) 0 else Z.min start len in
  take (Z.to_nat actualStart) arr ++ item :: drop (Z.to_nat actualStart) arr.

(** ** The state updaters passed to [setRepl] *)

(** [setCommandStatus]:
    [commands.map(command => command.id === id ? {...command, status} : command)] *)
Definition withStatus (commandStatus : ReplCommandStatus) (command : ReplCommand)
  : ReplCommand :=
  {| id := id command; status := commandStatus; yaml := yaml command |}.

Definition markIfNamed (i : string) (commandStatus : ReplCommandStatus)
  (command : ReplCommand) : ReplCommand :=
  if String.eqb (id command) i then withStatus commandStatus command else command.

Definition setCommandStatus_updater (i : string) (commandStatus : ReplCommandStatus)
  (prevRepl : Repl) : Repl :=
  {| commands := map (markIfNamed i commandStatus) (commands prevRepl) |}.

(** [deleteCommands]:
    [commands.filter(command => !ids.includes(command.id))] *)
Definition deleteCommands_updater (ids : list string) (prevRepl : Repl) : Repl :=
  {| commands := filter (λ command, id command ∉ ids) (commands prevRepl) |}.

(** [reorderCommands]: [commandMap] is a [Map] filled by [reduce] (a later
    command with the same id overwrites an earlier one); the commands found
    for [ids] are pushed first, then every command whose id is not in
    [ids]. *)
Definition commandMap (cmds : list ReplCommand) : gmap string ReplCommand :=
  foldl (λ acc command, <[id command := command]> acc) ∅ cmds.

Definition reorderCommands_updater (ids : list string) (prevRepl : Repl) : Repl :=
  let cmap := commandMap (commands prevRepl) in
  let named := omap (λ i, cmap !! i) ids in
  let others := filter (λ command, id command ∉ ids) (commands prevRepl) in
  {| commands := named ++ others |}.

(** The updater of [runCommand] in mock-generation mode: [index] starts at
    the position of the command that ran and is advanced after every
    [splice]. *)
Fixpoint spliceLoop (index : Z) (mockReplCommands newCommands : list ReplCommand)
  : list ReplCommand :=
  match mockReplCommands with
  | [] => newCommands
  | mockReplCommand :: rest =>
      spliceLoop (index + 1)%Z rest (splice_insert index mockReplCommand newCommands)
  end.

Definition insertMocks_updater (command : ReplCommand)
  (mockReplCommands : list ReplCommand) (prevRepl : Repl) : Repl :=
  let newCommands := commands prevRepl in
  let index := findIndex (λ c, String.eqb (id c) (id command)) newCommands in
  {| commands := spliceLoop index mockReplCommands newCommands |}.

(** [runCommandYaml]: [[...prevRepl.commands, ...commands]] *)
Definition appendCommands_updater (cmds : list ReplCommand) (prevRepl : Repl) : Repl :=
  {| commands := commands prevRepl ++ cmds |}.

(** ** The persisted shape

    [JSON.stringify(repl)] is applied to the object [{ commands: [...] }]
    whose entries are the object literals built by [parseCommands]
    ([id], [status], [yaml], in this order; the spread of
    [setCommandStatus] keeps the order). *)

Definition statusText (s : ReplCommandStatus) : string :=
  match s with
  | pending => "pending"
  | running => "running"
  | success => "success"
  | error => "error"
  | canceled => "canceled"
  end.

Definition commandToJs (command : ReplCommand) : JsValue :=
  JObj [("id", JStr (id command));
        ("status", JStr (statusText (status command)));
        ("yaml", JStr (yaml command))].

Definition replToJs (r : Repl) : JsValue :=
  JObj [("commands", JArr (map commandToJs (commands r)))].

(** Reading a restored value at the TypeScript type [Repl]: every entry
    must carry a string [id], one of the five status texts and a string
    [yaml]. *)
Definition statusOfText (s : string) : option ReplCommandStatus :=
  if String.eqb s "pending" then Some pending
  else if String.eqb s "running" then Some running
  else if String.eqb s "success" then Some success
  else if String.eqb s "error" then Some error
  else if String.eqb s "canceled" then Some canceled
  else None.

Definition commandOfJs (v : JsValue) : option ReplCommand :=
  match getPropOpt v "id", getPropOpt v "status", getPropOpt v "yaml" with
  | JStr i, JStr s, JStr y =>
      match statusOfText s with
      | Some st => Some {| id := i; status := st; yaml := y |}
      | None => None
      end
  | _, _, _ => None
  end.

Fixpoint commandsOfJs (vs : list JsValue) : option (list ReplCommand) :=
  match vs with
  | [] => Some []
  | v :: vs' =>
      match commandOfJs v, commandsOfJs vs' with
      | Some c, Some cs => Some (c :: cs)
      | _, _ => None
      end
  end.

Definition replOfJs (v : JsValue) : option Repl :=
  match getPropOpt v "commands" with
  | JArr vs =>
      match commandsOfJs vs with
      | Some cs => Some {| commands := cs |}
      | None => None
      end
  | _ => None
  end.

(** ** [JSON.parse(text, reviver)]

    After decoding the text, [JSON.parse] walks the value bottom-up
    (ECMAScript InternalizeJSONProperty): every element of an array is
    revived under its index as key, every property of an object under its
    name, a property revived to [undefined] is deleted, and finally the
    reviver is called on the holder's key and the rebuilt value.  The root
    is revived under the empty key. *)

Definition indexKey (i : nat) : string := NilEmpty.string_of_uint (Nat.to_uint i).

Fixpoint internalize (reviver : string → JsValue → JsValue)
  (name : string) (val : JsValue) : JsValue :=
  reviver name
    match val with
    | JArr elems =>
        JArr ((fix walk (i : nat) (l : list JsValue) : list JsValue :=
                 match l with
                 | [] => []
                 | e :: l' => internalize reviver (indexKey i) e :: walk (S i) l'
                 end) 0 elems)
    | JObj props =>
        JObj ((fix walk (l : list (string * JsValue)) : list (string * JsValue) :=
                 match l with
                 | [] => []
                 | (k, e) :: l' =>
                     match internalize reviver k e with
                     | JUndefined => walk l'
                     | e' => (k, e') :: walk l'
                     end
                 end) props)
    | _ => val
    end.

(** The reviver of [restoreRepl]:
    [(key, value) => { if (key === 'command' && !value) return []; return value }] *)
Definition restoreReviver (key : string) (value : JsValue) : JsValue :=
  if String.eqb key "command" && negb (truthy value) then JArr [] else value.

(** ** Collaborators *)

(** The remote execution API.  A call either resolves or rejects and may
    change the remote state. *)
Class ExecutionClient : Type := {
  ApiState : Type;
  API_runCommand : string → bool → ApiState → Outcome unit * ApiState;
  API_getMock : ApiState → Outcome string * ApiState;
  API_flushMock : ApiState → Outcome unit * ApiState
}.

(** The [yaml] package, the [JSON] text codec and the [uuid] generator
    ([uuidv4 n] is the result of the [n]-th call). *)
Class Libraries : Type := {
  YAML_parse : string → Outcome JsValue;
  YAML_stringify : JsValue → string;
  JSON_parse : string → Outcome JsValue;
  JSON_stringify : JsValue → string;
  uuidv4 : nat → string
}.

Inductive ApiCall : Type :=
| CallRunCommand (payload : string) (dryRun : bool)
| CallGetMock
| CallFlushMock.

(** [Outcome] as an exception monad. *)
Definition obind {A B : Type} (m : Outcome A) (k : A → Outcome B) : Outcome B :=
  match m with
  | Resolved a => k a
  | Rejected e => Rejected e
  end.

Fixpoint omapM {A B : Type} (f : A → Outcome B) (l : list A) : Outcome (list B) :=
  match l with
  | [] => Resolved []
  | x :: l' =>
      obind (f x) (λ y, obind (omapM f l') (λ ys, Resolved (y :: ys)))
  end.

(** ** The engine *)

Declare Scope async_scope.
Delimit Scope async_scope with async.

Section Engine.
Context {client : ExecutionClient} {libs : Libraries}.

(** The state held by [ReplProvider], the durable slot [localStorage.repl],
    the number of ids drawn so far, and the remote side with the trace of
    calls made to it. *)
Record World : Type := {
  repl : Repl;
  errorMessage : option string;
  isMockGenerationEnabled : bool;
  localStorage_repl : option string;
  uuid_calls : nat;
  api_state : ApiState;
  api_trace : list ApiCall
}.

Definition Async (A : Type) : Type := World → Outcome A * World.

Definition ret {A : Type} (a : A) : Async A := λ w, (Resolved a, w).

Definition throw {A : Type} (e : JsError) : Async A := λ w, (Rejected e, w).

Definition bind {A B : Type} (m : Async A) (k : A → Async B) : Async B :=
  λ w, match m w with
       | (Resolved a, w') => k a w'
       | (Rejected e, w') => (Rejected e, w')
       end.

(** [try { body } catch (e) { handler }]: state changes made before the
    throw are kept. *)
Definition try_catch {A : Type} (body : Async A) (handler : JsError → Async A)
  : Async A :=
  λ w, match body w with
       | (Resolved a, w') => (Resolved a, w')
       | (Rejected e, w') => handler e w'
       end.

Definition lift {A : Type} (o : Outcome A) : Async A := λ w, (o, w).

Notation "x <- m ;; k" := (bind m (λ x, k))
  (at level 100, m at next level, right associativity) : async_scope.
Notation "m ;; k" := (bind m (λ _, k))
  (at level 100, right associativity) : async_scope.
Local Open Scope async_scope.

(** [arr.forEach(f)] and the sequential [map] / [flatMap] of an effectful
    callback. *)
Fixpoint forEach {A : Type} (f : A → Async unit) (l : list A) : Async unit :=
  match l with
  | [] => ret tt
  | x :: l' => f x ;; forEach f l'
  end.

Fixpoint mapM {A B : Type} (f : A → Async B) (l : list A) : Async (list B) :=
  match l with
  | [] => ret []
  | x :: l' => y <- f x ;; ys <- mapM f l' ;; ret (y :: ys)
  end.

Fixpoint flatMapM {A B : Type} (f : A → Async (list B)) (l : list A)
  : Async (list B) :=
  match l with
  | [] => ret []
  | x :: l' => ys <- f x ;; zs <- flatMapM f l' ;; ret (ys ++ zs)
  end.

(** [localStorage.setItem('repl', JSON.stringify(repl))] *)
Definition persist (r : Repl) : string := JSON_stringify (replToJs r).

(** [setRepl(updater)], followed by the effect of [ReplProvider] that
    re-serialises the new queue. *)
Definition setRepl (updater : Repl → Repl) : Async unit :=
  λ w, let r := updater (repl w) in
       (Resolved tt,
        {| repl := r;
           errorMessage := errorMessage w;
           isMockGenerationEnabled := isMockGenerationEnabled w;
           localStorage_repl := Some (persist r);
           uuid_calls := uuid_calls w;
           api_state := api_state w;
           api_trace := api_trace w |}).

Definition setErrorMessage (msg : option string) : Async unit :=
  λ w, (Resolved tt,
        {| repl := repl w;
           errorMessage := msg;
           isMockGenerationEnabled := isMockGenerationEnabled w;
           localStorage_repl := localStorage_repl w;
           uuid_calls := uuid_calls w;
           api_state := api_state w;
           api_trace := api_trace w |}).

(** [changeToggle(prev => !prev)] *)
Definition toggleMockGeneration : Async unit :=
  λ w, (Resolved tt,
        {| repl := repl w;
           errorMessage := errorMessage w;
           isMockGenerationEnabled := negb (isMockGenerationEnabled w);
           localStorage_repl := localStorage_repl w;
           uuid_calls := uuid_calls w;
           api_state := api_state w;
           api_trace := api_trace w |}).

(** [`${uuidv4()}`] *)
Definition freshId : Async string :=
  λ w, (Resolved (uuidv4 (uuid_calls w)),
        {| repl := repl w;
           errorMessage := errorMessage w;
           isMockGenerationEnabled := isMockGenerationEnabled w;
           localStorage_repl := localStorage_repl w;
           uuid_calls := S (uuid_calls w);
           api_state := api_state w;
           api_trace := api_trace w |}).

(** A call to the remote API: the call is appended to the trace and the
    remote state advances. *)
Definition remote {A : Type} (call : ApiCall)
  (f : ApiState → Outcome A * ApiState) : Async A :=
  λ w, let (r, s) := f (api_state w) in
       (r,
        {| repl := repl w;
           errorMessage := errorMessage w;
           isMockGenerationEnabled := isMockGenerationEnabled w;
           localStorage_repl := localStorage_repl w;
           uuid_calls := uuid_calls w;
           api_state := s;
           api_trace := api_trace w ++ [call] |}).

Definition call_runCommand (payload : string) (dryRun : bool) : Async unit :=
  remote (CallRunCommand payload dryRun) (API_runCommand payload dryRun).

Definition call_getMock : Async string := remote CallGetMock API_getMock.

Definition call_flushMock : Async unit := remote CallFlushMock API_flushMock.

(** *** [restoreRepl] *)

(** [savedRepl] is the content of the slot; [!savedRepl] holds for an
    absent value and for the empty string.  The result is whatever
    [JSON.parse] returns; malformed text makes it throw. *)
Definition restoreRepl (savedRepl : option string) : Outcome JsValue :=
  match savedRepl with
  | None => Resolved (replToJs initialState)
  | Some text =>
      if String.eqb text "" then Resolved (replToJs initialState)
      else obind (JSON_parse text) (λ v, Resolved (internalize restoreReviver "" v))
  end.

(** *** Operations of [useRepl] *)

Definition setCommandStatus (i : string) (commandStatus : ReplCommandStatus)
  : Async unit :=
  setRepl (setCommandStatus_updater i commandStatus).

Definition deleteCommands (ids : list string) : Async unit :=
  setRepl (deleteCommands_updater ids).

Definition reorderCommands (ids : list string) : Async unit :=
  setRepl (reorderCommands_updater ids).

Definition flushMocks : Async unit := call_flushMock.

(** [parseCommands]: a root array gives one text per element, anything
    else one text; every text becomes a [pending] command with an id of
    its own. *)
Definition parsedYamls (parsed : JsValue) : list string :=
  match parsed with
  | JArr os => map YAML_stringify os
  | _ => [YAML_stringify parsed]
  end.

Definition newCommand (y : string) : Async ReplCommand :=
  i <- freshId ;;
  ret {| id := i; status := pending; yaml := y |}.

Definition parseCommands (text : string) : Async (list ReplCommand) :=
  parsed <- lift (YAML_parse text) ;;
  mapM newCommand (parsedYamls parsed).

(** [runGetMocks]: the text of one capture record, built before any
    command is created.  [item.runScript] throws on a [null] item. *)
Definition mockResult (item : JsValue) : Outcome JsValue :=
  obind (getProp item "runScript") (λ runScript,
  let env := js_or (getPropOpt runScript "env") (JObj []) in
  obind (getProp item "runScript") (λ runScript',
  let file := js_or (getPropOpt runScript' "file") (JStr "script/reproxy.js") in
  obind (getProp env "mode") (λ mode,
  obind (getProp env "api") (λ api,
  obind (getProp env "behavior") (λ behavior,
  Resolved
    (JObj [("runScript",
            JObj [("file", file);
                  ("env", JObj [("mode", mode);
                                ("api", api);
                                ("behavior", behavior)])])])))))).

Definition mockYaml (item : JsValue) : Outcome string :=
  obind (mockResult item) (λ r, Resolved (YAML_stringify r)).

(** The [try] block of [runGetMocks]: [JSON.parse], then the
    [Array.isArray] test that throws. *)
Definition parseMockArray (rawResult : string) : Async (list JsValue) :=
  parsedResults <- lift (JSON_parse rawResult) ;;
  match parsedResults with
  | JArr items => ret items
  | _ => throw {| message := Some "Parsed result is not an array" |}
  end.

Definition runGetMocks : Async (list ReplCommand) :=
  rawResult <- call_getMock ;;
  parsed <- try_catch
              (items <- parseMockArray rawResult ;; ret (Some items))
              (λ _, setErrorMessage (Some "Error parsing API response") ;;
                    ret None) ;;
  match parsed with
  | None => ret []
  | Some parsedResults =>
      yamls <- lift (omapM mockYaml parsedResults) ;;
      newCommands <- flatMapM parseCommands yamls ;;
      ret (map (withStatus success) newCommands)
  end.

(** [runCommand] *)
Definition runCommand (command : ReplCommand) : Async bool :=
  setCommandStatus (id command) running ;;
  try_catch
    (call_runCommand (yaml command) false ;;
     mockMode <- (λ w, (Resolved (isMockGenerationEnabled w), w)) ;;
     (if mockMode : bool then
        mockReplCommands <- runGetMocks ;;
        setRepl (insertMocks_updater command mockReplCommands)
      else
        flushMocks) ;;
     setCommandStatus (id command) success ;;
     ret true)
    (λ _, setCommandStatus (id command) error ;;
          ret false).

(** [runCommands]: the loop over the run-set with its [abort] flag. *)
Fixpoint runLoop (abort : bool) (cmds : list ReplCommand) : Async bool :=
  match cmds with
  | [] => ret abort
  | command :: rest =>
      if abort then
        setCommandStatus (id command) canceled ;;
        runLoop abort rest
      else
        ok <- runCommand command ;;
        runLoop (if ok : bool then abort else true) rest
  end.

Definition runCommands (cmds : list ReplCommand) : Async bool :=
  forEach (λ command, setCommandStatus (id command) pending) cmds ;;
  abort <- runLoop false cmds ;;
  ret (negb abort).

(** [runCommandYaml]: dry-run every candidate; the first rejection sets
    the error message and returns [false]. *)
Definition orDefault (msg : option string) (default : string) : string :=
  match msg with
  | Some m => if String.eqb m "" then default else m
  | None => default
  end.

Fixpoint validateAll (cmds : list ReplCommand) : Async bool :=
  match cmds with
  | [] => ret true
  | command :: rest =>
      ok <- try_catch
              (call_runCommand (yaml command) true ;; ret true)
              (λ e, setErrorMessage
                      (Some (orDefault (message e) "Failed to run command")) ;;
                    ret false) ;;
      if ok : bool then validateAll rest else ret false
  end.

Definition runCommandYaml (text : string) : Async bool :=
  cmds <- parseCommands text ;;
  valid <- validateAll cmds ;;
  if valid : bool then
    setRepl (appendCommands_updater cmds) ;;
    runCommands cmds
  else ret false.

(** [runCommandIds]:
    [repl.commands.filter(command => ids.includes(command.id))] *)
Definition selectCommands (ids : list string) (r : Repl) : list ReplCommand :=
  filter (λ command, id command ∈ ids) (commands r).

Definition runCommandIds (ids : list string) : Async bool :=
  λ w, runCommands (selectCommands ids (repl w)) w.

End Engine.

Arguments World {client}.
Arguments Async {client} A.


(** ** Vocabulary of the properties *)

(** The payloads really executed on the remote side: the non-dry-run
    [runCommand] calls of a trace, in order. *)
Definition dispatched (trace : list ApiCall) : list string :=
  omap (λ call, match call with
                | CallRunCommand payload false => Some payload
                | _ => None
                end) trace.

(** The command named [i] in a queue, and the commands named by a list of
    ids, in the order of the ids, unknown ids skipped. *)
Definition commandNamed (i : string) (queue : list ReplCommand) : option ReplCommand :=
  find (λ command, String.eqb (id command) i) queue.

Definition namedCommands (ids : list string) (queue : list ReplCommand)
  : list ReplCommand :=
  omap (λ i, commandNamed i queue) ids.

(** The queue [after] is the queue [before] with [mocks] inserted, in their
    order, in front of the entry at position [pos]; nothing else is added,
    removed or moved (entries are compared by id, statuses may change). *)
Definition splicedAt (pos : nat) (mocks before after : list ReplCommand) : Prop :=
  map id after
  = map id (take pos before) ++ map id mocks ++ map id (drop pos before).

(** Every entry of the queue with id [i] has status [st]. *)
Definition allNamed (i : string) (st : ReplCommandStatus) (queue : list ReplCommand)
  : Prop :=
  ∀ x, x ∈ queue → id x = i → status x = st.

(** The queue after every command of [cmds] has been marked [canceled], one
    [setCommandStatus] after the other. *)
Definition cancelAll (cmds queue : list ReplCommand) : list ReplCommand :=
  foldl (λ q command, map (markIfNamed (id command) canceled) q) queue cmds.

Section Vocabulary.
Context {libs : Libraries}.

(** The payloads built from one capture record: the record is rebuilt as
    [{ runScript: { file, env } }], printed as YAML and handed to
    [parseCommands]. *)
Definition recordYamls (item : JsValue) : Outcome (list string) :=
  obind (mockYaml item) (λ text,
  obind (YAML_parse text) (λ parsed,
  Resolved (parsedYamls parsed))).

(** The ids drawn by [n] consecutive calls of [uuidv4], starting with
    call number [k]. *)
Definition drawnIds (k n : nat) : list string := map uuidv4 (seq k n).

End Vocabulary.

Section Frames.
Context {client : ExecutionClient}.

(** A step is quiet when it leaves the queue, the durable slot and the
    mock-generation flag alone and executes nothing on the remote side
    (dry runs and mock calls may happen, ids may be drawn, the error
    message may change). *)
Definition quiet (w w' : World) : Prop :=
  repl w' = repl w ∧
  localStorage_repl w' = localStorage_repl w ∧
  isMockGenerationEnabled w' = isMockGenerationEnabled w ∧
  dispatched (api_trace w') = dispatched (api_trace w).

(** A step only touches the queue when it changes nothing but the queue
    and its serialisation in the durable slot. *)
Definition queueOnly (w w' : World) : Prop :=
  errorMessage w' = errorMessage w ∧
  isMockGenerationEnabled w' = isMockGenerationEnabled w ∧
  uuid_calls w' = uuid_calls w ∧
  api_state w' = api_state w ∧
  api_trace w' = api_trace w.

(** A step only draws [n] ids when it changes nothing but the count of
    [uuidv4] calls, which grows by [n]. *)
Definition drew (n : nat) (w w' : World) : Prop :=
  uuid_calls w' = uuid_calls w + n ∧
  repl w' = repl w ∧
  errorMessage w' = errorMessage w ∧
  isMockGenerationEnabled w' = isMockGenerationEnabled w ∧
  localStorage_repl w' = localStorage_repl w ∧
  api_state w' = api_state w ∧
  api_trace w' = api_trace w.

(** Every run of [m] is related by [R] to the world it started in. *)
Definition keeps {A : Type} (R : World → World → Prop) (m : Async A) : Prop :=
  ∀ w, R w (m w).2.

End Frames.

(** ** Further vocabulary *)

(** A decoded value on which the reviver of [restoreRepl] has nothing to
    do: it holds no [undefined] and no property named [command] with a
    falsy value. *)
Fixpoint plain (v : JsValue) : bool :=
  match v with
  | JUndefined => false
  | JArr elems => forallb plain elems
  | JObj props =>
      forallb (λ kv, match kv with
                     | (k, e) => plain e && (negb (String.eqb k "command") || truthy e)
                     end) props
  | _ => true
  end.

(** The calls of a run-set that runs through with mock generation off:
    every run is followed by one [flushMock]. *)
Definition flushedRuns (cmds : list ReplCommand) : list ApiCall :=
  flat_map (λ c, [CallRunCommand (yaml c) false; CallFlushMock]) cmds.

(** The value of [item.runScript?.k]. *)
Definition runScriptProp (item : JsValue) (k : string) : JsValue :=
  getPropOpt (getPropOpt item "runScript") k.

(** The value [v] is not an object with a property named [k]. *)
Definition hasNoProp (k : string) (v : JsValue) : Prop :=
  match v with
  | JObj props => k ∉ map fst props
  | _ => True
  end.

(** The payload of a restored entry is empty: the empty text, or the empty
    array the reviver of [restoreRepl] puts in. *)
Definition emptyPayload (entry : JsValue) : Prop :=
  getPropOpt entry "yaml" = JStr "" ∨ getPropOpt entry "yaml" = JArr [].

Section QueueInvariant.
Context {client : ExecutionClient} {libs : Libraries}.

(** Every command of [cmds] runs, one after the other from world [w], with
    [runCommand] returning [true], and the last run ends in world [w']. *)
Fixpoint allSucceed (cmds : list ReplCommand) (w w' : World) : Prop :=
  match cmds with
  | [] => w' = w
  | c :: rest =>
      ∃ w1, runCommand c w = (Resolved true, w1) ∧ allSucceed rest w1 w'
  end.

(** The ids of the queue are pairwise distinct and every one of them is the
    result of a [uuidv4] call already made. *)
Definition wellKeyed (w : World) : Prop :=
  NoDup (map id (commands (repl w))) ∧
  ∀ i, i ∈ map id (commands (repl w)) → ∃ j, (j < uuid_calls w)%nat ∧ i = uuidv4 j.

(** A step keeps the queue well keyed. *)
Definition keyedStep (w w' : World) : Prop := wellKeyed w → wellKeyed w'.

(** A step never takes back a drawn id. *)
Definition drawsOnly (w w' : World) : Prop :=
  repl w' = repl w ∧ (uuid_calls w ≤ uuid_calls w')%nat.

End QueueInvariant.

(** ** The toggle control ([components/design-system/toggle.tsx])

    The component keeps a local [isOn], initialised from the [checked] prop
    and set to it again by the effect whenever the prop changes.  A click
    does nothing when [disabled]; otherwise it flips [isOn] and calls
    [onChange] with the new value when the parent gave that optional prop
    ([onChange?.(newState)]).  [onChangeGiven] tells whether it did; the
    calls made are recorded in [notified]; [className] and [label] only
    affect the rendering. *)

Module Toggle.

Record ToggleProps : Type := {
  checked : bool;
  disabled : bool;
  onChangeGiven : bool
}.

Record State : Type := {
  props : ToggleProps;
  isOn : bool;
  notified : list bool
}.

(** First render: [useState(checked)], then the effect [setIsOn(checked)]. *)
Definition mount (p : ToggleProps) : State :=
  {| props := p; isOn := checked p; notified := [] |}.

(** [handleClick] *)
Definition handleClick (s : State) : State :=
  if disabled (props s) then s
  else
    let newState := negb (isOn s) in
    {| props := props s;
       isOn := newState;
       notified := if onChangeGiven (props s)
                   then notified s ++ [newState]
                   else notified s |}.

(** A render with new props: the effect depends on [[checked]] and runs
    only when that prop differs from the previous render. *)
Definition render (p : ToggleProps) (s : State) : State :=
  {| props := p;
     isOn := if Bool.eqb (checked p) (checked (props s)) then isOn s else checked p;
     notified := notified s |}.

Inductive Event : Type :=
| Click
| Render (p : ToggleProps).

Definition step (s : State) (e : Event) : State :=
  match e with
  | Click => handleClick s
  | Render p => render p s
  end.

Definition run (s : State) (events : list Event) : State := foldl step s events.

(** An event that leaves the toggle disabled. *)
Definition staysDisabled (e : Event) : Prop :=
  match e with
  | Click => True
  | Render p => disabled p = true
  end.

(** An event after which the parent still passes [onChange]. *)
Definition passesOnChange (e : Event) : Prop :=
  match e with
  | Click => True
  | Render p => onChangeGiven p = true
  end.

(** The value shown is the [checked] prop or the value last notified. *)
Definition known (s : State) : Prop :=
  isOn s = checked (props s) ∨ last (notified s) = Some (isOn s).

End Toggle.
(** ** Test doubles

    A scripted remote API and small table-driven codecs, used to run the
    engine on concrete inputs. *)

Module Demo.

(** The remote side: [rejects payload dryRun] tells whether (and how) a
    run is rejected, [captured] is the text answered by [getMock]. *)
Definition scriptedClient
  (rejects : string → bool → option JsError) (captured : Outcome string)
  : ExecutionClient :=
  {| ApiState := unit;
     API_runCommand := λ payload dryRun s,
       (match rejects payload dryRun with
        | Some e => Rejected e
        | None => Resolved tt
        end, s);
     API_getMock := λ s, (captured, s);
     API_flushMock := λ s, (Resolved tt, s) |}.

Definition SyntaxError : JsError := {| message := Some "Unexpected token" |}.

Definition record (file : string) : JsValue :=
  JObj [("runScript", JObj [("file", JStr file)])].

(** Texts understood by the table-driven decoders. *)
Definition demo_YAML_parse (text : string) : Outcome JsValue :=
  if String.eqb text "" then Rejected SyntaxError
  else if String.eqb text "[tapOn: a, tapOn: b]"
  then Resolved (JArr [JStr "tapOn: a"; JStr "tapOn: b"])
  else if String.eqb text "[tapOn: a, tapOn: b, tapOn: c]"
  then Resolved (JArr [JStr "tapOn: a"; JStr "tapOn: b"; JStr "tapOn: c"])
  else Resolved (JStr text).

Definition demo_YAML_stringify (v : JsValue) : string :=
  match v with
  | JStr s => s
  | JObj (("runScript", JObj (("file", JStr f) :: _)) :: _) => "runScript: " ++ f
  | _ => "~"
  end.

Definition savedOne : string :=
  "{'commands':[{'id':'a','status':'success','yaml':'tapOn: a'}]}".

Definition savedNoYaml : string :=
  "{'commands':[{'id':'a','status':'pending'}]}".

Definition savedNullYaml : string :=
  "{'commands':[{'id':'a','status':'pending','yaml':null}]}".

Definition demo_JSON_parse (text : string) : Outcome JsValue :=
  if String.eqb text "[{'runScript':{'file':'m1.js'}},{'runScript':{'file':'m2.js'}}]"
  then Resolved (JArr [record "m1.js"; record "m2.js"])
  else if String.eqb text "{'captures':[]}"
  then Resolved (JObj [("captures", JArr [])])
  else if String.eqb text savedOne
  then Resolved (JObj [("commands",
                        JArr [JObj [("id", JStr "a");
                                    ("status", JStr "success");
                                    ("yaml", JStr "tapOn: a")]])])
  else if String.eqb text savedNoYaml
  then Resolved (JObj [("commands",
                        JArr [JObj [("id", JStr "a");
                                    ("status", JStr "pending")]])])
  else if String.eqb text savedNullYaml
  then Resolved (JObj [("commands",
                        JArr [JObj [("id", JStr "a");
                                    ("status", JStr "pending");
                                    ("yaml", JNull)]])])
  else Rejected SyntaxError.

(** A printer for the values the queue is made of (single quotes stand
    for the double quotes of JSON). *)
Fixpoint demo_JSON_stringify (v : JsValue) : string :=
  match v with
  | JStr s => "'" ++ s ++ "'"
  | JArr elems =>
      "[" ++ String.concat "," (map demo_JSON_stringify elems) ++ "]"
  | JObj props =>
      "{" ++ String.concat ","
               (map (λ kv, "'" ++ fst kv ++ "':" ++ demo_JSON_stringify (snd kv))
                    props) ++ "}"
  | JBool true => "true"
  | JBool false => "false"
  | _ => "null"
  end%string.

Definition demoLibraries : Libraries :=
  {| YAML_parse := demo_YAML_parse;
     YAML_stringify := demo_YAML_stringify;
     JSON_parse := demo_JSON_parse;
     JSON_stringify := demo_JSON_stringify;
     uuidv4 := λ n, ("uuid-" ++ indexKey n)%string |}.

Definition cmd (i : string) (s : ReplCommandStatus) (y : string) : ReplCommand :=
  {| id := i; status := s; yaml := y |}.

Definition world (client : ExecutionClient) (s : @ApiState client)
  (queue : list ReplCommand) (mockMode : bool) : World :=
  {| repl := {| commands := queue |};
     errorMessage := None;
     isMockGenerationEnabled := mockMode;
     localStorage_repl := None;
     uuid_calls := 0;
     api_state := s;
     api_trace := [] |}.

(** Three scripted remote sides: one that accepts every run and answers
    two capture records, one that answers a capture text that is not an
    array, and one that rejects a given payload. *)
Definition twoRecords : string :=
  "[{'runScript':{'file':'m1.js'}},{'runScript':{'file':'m2.js'}}]".

Definition capturing : ExecutionClient :=
  scriptedClient (λ _ _, None) (Resolved twoRecords).


Definition boom : JsError := {| message := Some "boom" |}.

Definition rejecting (payload : string) (dryRun : bool) : ExecutionClient :=
  scriptedClient
    (λ p d, if String.eqb p payload && Bool.eqb d dryRun then Some boom else None)
    (Resolved twoRecords).

Definition a : ReplCommand := cmd "a" success "tapOn: a".
Definition b : ReplCommand := cmd "b" success "tapOn: b".
Definition c : ReplCommand := cmd "c" success "tapOn: c".
Definition X : ReplCommand := cmd "X" pending "tapOn: x".
Definition m1 : ReplCommand := cmd "uuid-0" success "runScript: m1.js".
Definition m2 : ReplCommand := cmd "uuid-1" success "runScript: m2.js".

End Demo.


(** ** Further test doubles *)

Module Fixtures.



Definition savedFalsyCommand : string := "{'command':null,'commands':[]}".

Definition fixture_JSON_parse (text : string) : Outcome JsValue :=
  if String.eqb text "[null]" then Resolved (JArr [JNull])
  else if String.eqb text savedFalsyCommand
  then Resolved (JObj [("command", JNull); ("commands", JArr [])])
  else Demo.demo_JSON_parse text.

Definition fixture_YAML_parse (text : string) : Outcome JsValue :=
  if String.eqb text "[]" then Resolved (JArr []) else Demo.demo_YAML_parse text.

(** The ids of this generator are the decimal numerals of the call
    numbers. *)
Definition fixtureLibraries : Libraries :=
  {| YAML_parse := fixture_YAML_parse;
     YAML_stringify := Demo.demo_YAML_stringify;
     JSON_parse := fixture_JSON_parse;
     JSON_stringify := Demo.demo_JSON_stringify;
     uuidv4 := indexKey |}.

(** A world in which [n] ids have been drawn already. *)
Definition worldAt (client : ExecutionClient) (s : @ApiState client)
  (queue : list ReplCommand) (mockMode : bool) (n : nat) : World :=
  {| repl := {| commands := queue |};
     errorMessage := None;
     isMockGenerationEnabled := mockMode;
     localStorage_repl := None;
     uuid_calls := n;
     api_state := s;
     api_trace := [] |}.

Definition k0 : ReplCommand := Demo.cmd "0" success "tapOn: a".
Definition k1 : ReplCommand := Demo.cmd "1" success "tapOn: b".

End Fixtures.
(** * Properties *)

(** ** Status transition *)

Lemma markIfNamed_id i st c : id (markIfNamed i st c) = id c.
Proof. unfold markIfNamed. by destruct (String.eqb (id c) i). Qed.

Lemma markIfNamed_yaml i st c : yaml (markIfNamed i st c) = yaml c.
Proof. unfold markIfNamed. by destruct (String.eqb (id c) i). Qed.

Lemma markIfNamed_other i st c : id c ≠ i → markIfNamed i st c = c.
Proof. unfold markIfNamed. by destruct (String.eqb_spec (id c) i). Qed.

Lemma markIfNamed_same i st c : id c = i → markIfNamed i st c = withStatus st c.
Proof. unfold markIfNamed. by destruct (String.eqb_spec (id c) i). Qed.

Lemma setStatus_commands i st r :
  commands (setCommandStatus_updater i st r) = map (markIfNamed i st) (commands r).
Proof. reflexivity. Qed.

Lemma setStatus_length i st r :
  length (commands (setCommandStatus_updater i st r)) = length (commands r).
Proof. rewrite setStatus_commands. apply length_map. Qed.

Lemma setStatus_ids i st r :
  map id (commands (setCommandStatus_updater i st r)) = map id (commands r).
Proof.
  rewrite setStatus_commands, map_map. apply map_ext. intros c.
  apply markIfNamed_id.
Qed.

Lemma setStatus_yamls i st r :
  map yaml (commands (setCommandStatus_updater i st r)) = map yaml (commands r).
Proof.
  rewrite setStatus_commands, map_map. apply map_ext. intros c.
  apply markIfNamed_yaml.
Qed.

Lemma setStatus_lookup i st r n c :
  commands r !! n = Some c →
  commands (setCommandStatus_updater i st r) !! n
  = Some (if decide (id c = i) then withStatus st c else c).
Proof.
  rewrite setStatus_commands. revert n.
  induction (commands r) as [|c' q IH]; intros [|n] Hn; simplify_eq/=.
  - case_decide; [by rewrite markIfNamed_same|by rewrite markIfNamed_other].
  - by apply IH.
Qed.

Lemma setStatus_absent i st r :
  i ∉ map id (commands r) → setCommandStatus_updater i st r = r.
Proof.
  destruct r as [q]. unfold setCommandStatus_updater; simpl. intros Hi. f_equal.
  induction q as [|c q IH]; simpl in *; [done|].
  apply not_elem_of_cons in Hi as [Hne Hi].
  rewrite markIfNamed_other by done. by rewrite IH.
Qed.

Section StatusTransition.
Context {client : ExecutionClient} {libs : Libraries}.

(** C10.  The status transition [setCommandStatus id status] resolves, and
    the queue it leaves has the same length, the same ids and the same
    payloads in the same order; at every position the command is the old
    one, with only its status replaced when its id is the given id; and the
    queue is unchanged when no command has the given id. *)
Theorem setCommandStatus_frame (i : string) (st : ReplCommandStatus) (w : World) :
  ∃ w', setCommandStatus i st w = (Resolved tt, w') ∧
    let q := commands (repl w) in
    let q' := commands (repl w') in
    length q' = length q ∧
    map id q' = map id q ∧
    map yaml q' = map yaml q ∧
    (∀ n c, q !! n = Some c →
            q' !! n = Some (if decide (id c = i) then withStatus st c else c)) ∧
    (i ∉ map id q → repl w' = repl w).
Proof.
  eexists; split; [reflexivity|]. simpl.
  split; [apply setStatus_length|].
  split; [apply setStatus_ids|].
  split; [apply setStatus_yamls|].
  split; [intros n c; apply setStatus_lookup|apply setStatus_absent].
Qed.

End StatusTransition.

(** ** Reorder *)

Lemma commandMap_foldl_absent (q : list ReplCommand) (acc : gmap string ReplCommand) i :
  i ∉ map id q →
  foldl (λ acc command, <[id command := command]> acc) acc q !! i = acc !! i.
Proof.
  revert acc. induction q as [|c q IH]; intros acc Hi; simpl in *; [done|].
  apply not_elem_of_cons in Hi as [Hne Hi].
  rewrite IH by done. by rewrite lookup_insert_ne.
Qed.

Lemma commandMap_foldl_lookup (q : list ReplCommand) (acc : gmap string ReplCommand) i :
  NoDup (map id q) →
  foldl (λ acc command, <[id command := command]> acc) acc q !! i
  = match commandNamed i q with Some c => Some c | None => acc !! i end.
Proof.
  revert acc. induction q as [|c q IH]; intros acc Hnd; simpl in *; [done|].
  apply NoDup_cons in Hnd as [Hc Hnd]. unfold commandNamed; simpl.
  destruct (String.eqb_spec (id c) i) as [<-|Hne].
  - rewrite commandMap_foldl_absent by done. apply lookup_insert_eq.
  - rewrite IH by done. fold (commandNamed i q).
    destruct (commandNamed i q); [done|]. by rewrite lookup_insert_ne.
Qed.

Lemma commandMap_lookup (q : list ReplCommand) i :
  NoDup (map id q) → commandMap q !! i = commandNamed i q.
Proof.
  intros Hnd. unfold commandMap. rewrite commandMap_foldl_lookup by done.
  destruct (commandNamed i q); [done|]. apply lookup_empty.
Qed.

Lemma commandNamed_elem (q : list ReplCommand) c :
  NoDup (map id q) → c ∈ q → commandNamed (id c) q = Some c.
Proof.
  unfold commandNamed.
  induction q as [|c' q IH]; intros Hnd Hc; simpl in *; [by apply elem_of_nil in Hc|].
  apply NoDup_cons in Hnd as [Hc' Hnd].
  apply elem_of_cons in Hc as [->|Hc].
  - by rewrite String.eqb_refl.
  - destruct (String.eqb_spec (id c') (id c)) as [E|_]; [|by apply IH].
    exfalso. apply Hc'. rewrite E. apply list_elem_of_In, in_map.
    by apply list_elem_of_In.
Qed.

Lemma commandNamed_Some (q : list ReplCommand) i c :
  commandNamed i q = Some c → c ∈ q ∧ id c = i.
Proof.
  unfold commandNamed. intros H. apply find_some in H as [Hin Heq].
  split; [by apply list_elem_of_In|by apply String.eqb_eq].
Qed.

Lemma commandNamed_None (q : list ReplCommand) i :
  i ∉ map id q → commandNamed i q = None.
Proof.
  intros Hi. destruct (commandNamed i q) as [c|] eqn:E; [|done].
  apply commandNamed_Some in E as [Hin <-]. exfalso. apply Hi.
  apply list_elem_of_In, in_map. by apply list_elem_of_In.
Qed.

Lemma namedCommands_own_ids (q l : list ReplCommand) :
  NoDup (map id q) → l ⊆ q → namedCommands (map id l) q = l.
Proof.
  intros Hnd. unfold namedCommands.
  induction l as [|c l IH]; intros Hsub; csimpl; [done|].
  rewrite commandNamed_elem; [|done|apply Hsub; left].
  f_equal. apply IH. intros x Hx. apply Hsub. by right.
Qed.

Lemma filter_not_own_ids (q : list ReplCommand) (ids : list string) :
  map id q ⊆ ids → filter (λ command, id command ∉ ids) q = [].
Proof.
  induction q as [|c q IH]; intros Hsub; simpl in *; [done|].
  rewrite filter_cons. destruct (decide (id c ∉ ids)) as [Hn|_].
  - exfalso. apply Hn, Hsub. left.
  - apply IH. intros x Hx. apply Hsub. by right.
Qed.

Lemma omap_commandMap (q : list ReplCommand) (ids : list string) :
  NoDup (map id q) → omap (λ i, commandMap q !! i) ids = namedCommands ids q.
Proof.
  intros Hnd. unfold namedCommands.
  induction ids as [|i ids IH]; [done|]. csimpl.
  rewrite commandMap_lookup by done. by rewrite IH.
Qed.

Section Reorder.
Context {client : ExecutionClient} {libs : Libraries}.

(** C7.  On a queue without duplicate ids, [reorderCommands ids] leaves the
    commands named in [ids], in the order of [ids] (ids naming no command
    are skipped), followed by the commands whose id is not in [ids], in
    their original relative order and unchanged; with the full id sequence
    of the queue the queue is left equal to what it was. *)
Theorem reorderCommands_spec (ids : list string) (w : World) :
  NoDup (map id (commands (repl w))) →
  ∃ w', reorderCommands ids w = (Resolved tt, w') ∧
    let q := commands (repl w) in
    commands (repl w')
    = namedCommands ids q ++ filter (λ command, id command ∉ ids) q ∧
    (∀ i, i ∈ ids → i ∉ map id q → commandNamed i q = None) ∧
    (ids = map id q → repl w' = repl w).
Proof.
  intros Hnd. eexists; split; [reflexivity|].
  cbn [repl commands reorderCommands_updater]. cbv zeta.
  rewrite (omap_commandMap _ _ Hnd).
  split; [done|]. split; [intros i _; apply commandNamed_None|].
  intros ->. destruct (repl w) as [q]. unfold reorderCommands_updater.
  cbn [commands] in *. f_equal. rewrite (omap_commandMap _ _ Hnd).
  rewrite namedCommands_own_ids by done.
  rewrite filter_not_own_ids by done. apply app_nil_r.
Qed.

End Reorder.

(** ** Reasoning about [Async] computations *)

Section AsyncLemmas.
Context {client : ExecutionClient} {libs : Libraries}.

Lemma bind_resolved {A B} (m : Async A) (k : A → Async B) w a w1 :
  m w = (Resolved a, w1) → bind m k w = k a w1.
Proof. unfold bind. by intros ->. Qed.

Lemma bind_rejected {A B} (m : Async A) (k : A → Async B) w e w1 :
  m w = (Rejected e, w1) → bind m k w = (Rejected e, w1).
Proof. unfold bind. by intros ->. Qed.

Lemma try_resolved {A} (m : Async A) (h : JsError → Async A) w a w1 :
  m w = (Resolved a, w1) → try_catch m h w = (Resolved a, w1).
Proof. unfold try_catch. by intros ->. Qed.

Lemma try_rejected {A} (m : Async A) (h : JsError → Async A) w e w1 :
  m w = (Rejected e, w1) → try_catch m h w = h e w1.
Proof. unfold try_catch. by intros ->. Qed.

Lemma quiet_preorder : PreOrder (quiet (client:=client)).
Proof.
  split; [by intros w|].
  intros w1 w2 w3 (?&?&?&?) (?&?&?&?). unfold quiet. intuition congruence.
Qed.

Section Keeps.
Context (R : World → World → Prop) `{!PreOrder R}.

Lemma keeps_ret {A} (a : A) : keeps R (ret a).
Proof. intros w. simpl. reflexivity. Qed.

Lemma keeps_throw {A} e : keeps R (throw (A:=A) e).
Proof. intros w. simpl. reflexivity. Qed.

Lemma keeps_lift {A} (o : Outcome A) : keeps R (lift o).
Proof. intros w. simpl. reflexivity. Qed.

Lemma keeps_bind {A B} (m : Async A) (k : A → Async B) :
  keeps R m → (∀ a, keeps R (k a)) → keeps R (bind m k).
Proof.
  intros Hm Hk w. unfold bind. specialize (Hm w).
  destruct (m w) as [[a|e] w1]; simpl in *; [|done].
  etransitivity; [exact Hm|apply Hk].
Qed.

Lemma keeps_try_catch {A} (m : Async A) (h : JsError → Async A) :
  keeps R m → (∀ e, keeps R (h e)) → keeps R (try_catch m h).
Proof.
  intros Hm Hh w. unfold try_catch. specialize (Hm w).
  destruct (m w) as [[a|e] w1]; simpl in *; [done|].
  etransitivity; [exact Hm|apply Hh].
Qed.

Lemma keeps_forEach {A} (f : A → Async unit) l :
  (∀ x, keeps R (f x)) → keeps R (forEach f l).
Proof.
  intros Hf. induction l as [|x l IH]; simpl; [apply keeps_ret|].
  apply keeps_bind; [apply Hf|by intros _].
Qed.

Lemma keeps_mapM {A B} (f : A → Async B) l :
  (∀ x, keeps R (f x)) → keeps R (mapM f l).
Proof.
  intros Hf. induction l as [|x l IH]; simpl; [apply keeps_ret|].
  apply keeps_bind; [apply Hf|intros y].
  apply keeps_bind; [apply IH|intros ys; apply keeps_ret].
Qed.

Lemma keeps_flatMapM {A B} (f : A → Async (list B)) l :
  (∀ x, keeps R (f x)) → keeps R (flatMapM f l).
Proof.
  intros Hf. induction l as [|x l IH]; simpl; [apply keeps_ret|].
  apply keeps_bind; [apply Hf|intros y].
  apply keeps_bind; [apply IH|intros ys; apply keeps_ret].
Qed.
End Keeps.

Lemma dispatched_snoc tr call :
  dispatched (tr ++ [call])
  = dispatched tr ++ match call with
                     | CallRunCommand payload false => [payload]
                     | _ => []
                     end.
Proof.
  unfold dispatched. rewrite omap_app. f_equal.
  by destruct call as [payload [|]| |].
Qed.

Lemma quiet_setErrorMessage msg : keeps quiet (setErrorMessage msg).
Proof. by intros w. Qed.

Lemma quiet_freshId : keeps quiet freshId.
Proof. by intros w. Qed.

Lemma quiet_remote {A} call (f : ApiState → Outcome A * ApiState) :
  (∀ payload, call ≠ CallRunCommand payload false) →
  keeps quiet (remote call f).
Proof.
  intros Hcall w. unfold remote. destruct (f (api_state w)) as [r s].
  unfold quiet. cbn [snd repl localStorage_repl isMockGenerationEnabled api_trace].
  repeat split. rewrite dispatched_snoc.
  destruct call as [payload [|]| |]; rewrite ?app_nil_r; try done.
  by destruct (Hcall payload).
Qed.

Lemma quiet_parseCommands text : keeps quiet (parseCommands text).
Proof.
  apply keeps_bind; [apply quiet_preorder|apply keeps_lift, quiet_preorder|intros parsed].
  apply keeps_mapM; [apply quiet_preorder|intros y].
  apply keeps_bind; [apply quiet_preorder|apply quiet_freshId|intros i].
  apply keeps_ret, quiet_preorder.
Qed.

Lemma quiet_runGetMocks : keeps quiet runGetMocks.
Proof.
  apply keeps_bind; [apply quiet_preorder|by apply quiet_remote|intros raw].
  apply keeps_bind; [apply quiet_preorder| |intros [items|]].
  - apply keeps_try_catch; [apply quiet_preorder| |].
    + apply keeps_bind; [apply quiet_preorder| |intros items; apply keeps_ret, quiet_preorder].
      apply keeps_bind; [apply quiet_preorder|apply keeps_lift, quiet_preorder|intros v].
      destruct v; try apply keeps_throw, quiet_preorder. apply keeps_ret, quiet_preorder.
    + intros _. apply keeps_bind; [apply quiet_preorder|apply quiet_setErrorMessage|].
      intros _; apply keeps_ret, quiet_preorder.
  - apply keeps_bind; [apply quiet_preorder|apply keeps_lift, quiet_preorder|intros yamls].
    apply keeps_bind; [apply quiet_preorder| |intros cs; apply keeps_ret, quiet_preorder].
    apply keeps_flatMapM; [apply quiet_preorder|apply quiet_parseCommands].
  - apply keeps_ret, quiet_preorder.
Qed.

Lemma quiet_validateAll cmds : keeps quiet (validateAll cmds).
Proof.
  induction cmds as [|c cmds IH]; simpl; [apply keeps_ret, quiet_preorder|].
  apply keeps_bind; [apply quiet_preorder| |intros [|]; [apply IH|apply keeps_ret, quiet_preorder]].
  apply keeps_try_catch; [apply quiet_preorder| |].
  - apply keeps_bind; [apply quiet_preorder|by apply quiet_remote|intros _].
    apply keeps_ret, quiet_preorder.
  - intros e. apply keeps_bind; [apply quiet_preorder|apply quiet_setErrorMessage|].
    intros _; apply keeps_ret, quiet_preorder.
Qed.

End AsyncLemmas.

(** ** Parsing the submitted text *)

Section Parse.
Context {client : ExecutionClient} {libs : Libraries}.

Lemma drawnIds_cons k n : drawnIds k (S n) = uuidv4 k :: drawnIds (S k) n.
Proof. reflexivity. Qed.

Lemma mapM_newCommand (ys : list string) (w : World) :
  ∃ cmds w', mapM newCommand ys w = (Resolved cmds, w') ∧
    map yaml cmds = ys ∧
    map id cmds = drawnIds (uuid_calls w) (length ys) ∧
    Forall (λ c, status c = pending) cmds ∧
    drew (length ys) w w'.
Proof.
  revert w. induction ys as [|y ys IH]; intros w.
  - exists [], w. repeat split; try done; simpl; lia.
  - set (w1 := (freshId w).2).
    destruct (IH w1) as (cs & w' & E & Hy & Hi & Hs & Hd).
    exists ({| id := uuidv4 (uuid_calls w); status := pending; yaml := y |} :: cs), w'.
    split.
    { cbn [mapM]. erewrite bind_resolved; [|reflexivity].
      erewrite bind_resolved; [|exact E]. reflexivity. }
    cbn [map length]. rewrite Hy, Hi, drawnIds_cons.
    split; [done|]. split; [done|]. split; [by constructor|].
    destruct Hd as (?&?&?&?&?&?&?). unfold drew. subst w1; simpl in *.
    repeat split; try done. lia.
Qed.

Lemma drawnIds_length k n : length (drawnIds k n) = n.
Proof. unfold drawnIds. by rewrite length_map, length_seq. Qed.

Lemma drawnIds_elem i k n :
  i ∈ drawnIds k n ↔ ∃ j, k ≤ j < k + n ∧ i = uuidv4 j.
Proof.
  unfold drawnIds. rewrite list_elem_of_In, in_map_iff. split.
  - intros (j & <- & Hj). apply in_seq in Hj. eauto.
  - intros (j & Hj & ->). exists j. split; [done|]. by apply in_seq.
Qed.

Lemma drawnIds_NoDup k n :
  (∀ a b, uuidv4 a = uuidv4 b → a = b) → NoDup (drawnIds k n).
Proof.
  intros Hinj. revert k. induction n as [|n IH]; intros k; [constructor|].
  rewrite drawnIds_cons. constructor; [|apply IH].
  rewrite drawnIds_elem. intros (j & Hj & E). apply Hinj in E. lia.
Qed.

(** C8.  When the text decodes to [parsed], [parseCommands] resolves with
    one command per element of [parsed] if it is an array (the payload is
    the element, printed on its own) and with exactly one command
    otherwise (the payload is the whole value, printed), in document
    order; every command is [pending]; the ids are the results of as many
    new, consecutive calls of [uuidv4], so that with a generator that
    never repeats they differ from each other and from every id drawn
    before. *)
Theorem parseCommands_spec (text : string) (parsed : JsValue) (w : World) :
  YAML_parse text = Resolved parsed →
  ∃ cmds w', parseCommands text w = (Resolved cmds, w') ∧
    match parsed with
    | JArr elems => map yaml cmds = map YAML_stringify elems
    | _ => map yaml cmds = [YAML_stringify parsed]
    end ∧
    Forall (λ c, status c = pending) cmds ∧
    map id cmds = drawnIds (uuid_calls w) (length cmds) ∧
    drew (length cmds) w w' ∧
    ((∀ a b, uuidv4 a = uuidv4 b → a = b) →
     NoDup (map id cmds) ∧
     ∀ j, j < uuid_calls w → uuidv4 j ∉ map id cmds).
Proof.
  intros Hparse.
  destruct (mapM_newCommand (parsedYamls parsed) w) as (cs & w' & E & Hy & Hi & Hs & Hd).
  assert (length cs = length (parsedYamls parsed)) as Hlen.
  { by rewrite <- Hy, length_map. }
  exists cs, w'. split.
  { unfold parseCommands, bind at 1, lift. by rewrite Hparse. }
  rewrite Hlen. split; [by destruct parsed|].
  split; [done|]. split; [done|]. split; [done|].
  intros Hinj. rewrite Hi. split; [by apply drawnIds_NoDup|].
  intros j Hj. rewrite drawnIds_elem. intros (j' & Hj' & E'). apply Hinj in E'. lia.
Qed.

End Parse.

(** ** Submitting text: validation before any mutation *)

Section Submit.
Context {client : ExecutionClient} {libs : Libraries}.

Lemma parseCommands_inv (text : string) (w w1 : World) cmds :
  parseCommands text w = (Resolved cmds, w1) →
  ∃ parsed, YAML_parse text = Resolved parsed ∧
    map yaml cmds = parsedYamls parsed ∧
    map id cmds = drawnIds (uuid_calls w) (length cmds) ∧
    drew (length cmds) w w1.
Proof.
  unfold parseCommands, bind at 1, lift.
  destruct (YAML_parse text) as [parsed|e]; [|done].
  destruct (mapM_newCommand (parsedYamls parsed) w) as (cs & w' & E & Hy & Hi & _ & Hd).
  rewrite E. intros [= <- <-]. exists parsed. split; [done|]. split; [done|].
  by rewrite <- Hy, length_map in Hd, Hi.
Qed.

Lemma remote_trace {A} call (f : ApiState → Outcome A * ApiState) w r w' :
  remote call f w = (r, w') →
  api_trace w' = api_trace w ++ [call] ∧
  repl w' = repl w ∧ localStorage_repl w' = localStorage_repl w ∧
  errorMessage w' = errorMessage w ∧
  isMockGenerationEnabled w' = isMockGenerationEnabled w ∧
  uuid_calls w' = uuid_calls w.
Proof.
  unfold remote. destruct (f (api_state w)) as [r' s]. by intros [= <- <-].
Qed.

Lemma validateAll_rejected pre c post w1 w2 e w3 :
  forEach (λ c, call_runCommand (yaml c) true) pre w1 = (Resolved tt, w2) →
  call_runCommand (yaml c) true w2 = (Rejected e, w3) →
  ∃ w', validateAll (pre ++ c :: post) w1 = (Resolved false, w') ∧
    errorMessage w' = Some (orDefault (message e) "Failed to run command") ∧
    repl w' = repl w1 ∧ localStorage_repl w' = localStorage_repl w1 ∧
    api_trace w'
    = api_trace w1 ++ map (λ c, CallRunCommand (yaml c) true) (pre ++ [c]).
Proof.
  revert w1. induction pre as [|p pre IH]; intros w1 Hpre Hc.
  - injection Hpre as <-. eexists. split.
    { cbn [app validateAll]. unfold bind, try_catch. by rewrite Hc. }
    apply remote_trace in Hc as (Ht & Hr & Hl & _). simpl.
    by rewrite Ht, Hr, Hl.
  - cbn [forEach] in Hpre. unfold bind at 1 in Hpre.
    destruct (call_runCommand (yaml p) true w1) as [[[]|e'] wm] eqn:Ep; [|done].
    destruct (IH wm Hpre Hc) as (w' & E & He & Hr & Hl & Ht).
    exists w'. split.
    { cbn [app validateAll]. unfold bind at 1, try_catch, bind at 1.
      rewrite Ep. exact E. }
    apply remote_trace in Ep as (Ht' & Hr' & Hl' & _).
    rewrite He, Hr, Hl, Ht, Ht', Hr', Hl'. cbn [app map].
    by rewrite <- app_assoc.
Qed.

(** C2.  Let the text parse into candidates [pre ++ c :: post] such that
    the dry runs of [pre] are accepted, in order, and the dry run of [c] is
    rejected with error [e].  Then [runCommandYaml] returns [false] with
    the error message set to the message of [e] (or to the fixed text
    ["Failed to run command"] when [e] carries none), the queue and the
    durable slot are what they were before the call, and the only calls
    made to the remote side are the dry runs of [pre] and [c]. *)
Theorem runCommandYaml_atomic (text : string) (w w1 w2 w3 : World)
  (pre post : list ReplCommand) (c : ReplCommand) (e : JsError) :
  parseCommands text w = (Resolved (pre ++ c :: post), w1) →
  forEach (λ c, call_runCommand (yaml c) true) pre w1 = (Resolved tt, w2) →
  call_runCommand (yaml c) true w2 = (Rejected e, w3) →
  ∃ w', runCommandYaml text w = (Resolved false, w') ∧
    errorMessage w' = Some (orDefault (message e) "Failed to run command") ∧
    repl w' = repl w ∧
    localStorage_repl w' = localStorage_repl w ∧
    api_trace w'
    = api_trace w ++ map (λ c, CallRunCommand (yaml c) true) (pre ++ [c]).
Proof.
  intros Hparse Hpre Hc.
  destruct (validateAll_rejected pre c post w1 w2 e w3 Hpre Hc)
    as (w' & E & He & Hr & Hl & Ht).
  exists w'. split.
  { unfold runCommandYaml. erewrite bind_resolved; [|exact Hparse].
    erewrite bind_resolved; [|exact E]. reflexivity. }
  apply parseCommands_inv in Hparse as (_ & _ & _ & _ & (_ & Hr1 & _ & _ & Hl1 & _ & Ht1)).
  by rewrite He, Hr, Hl, Ht, Hr1, Hl1, Ht1.
Qed.

End Submit.

(** ** Running one command *)

Lemma findIndex_from_app (i : string) (k : Z) (pre : list ReplCommand) x post :
  i ∉ map id pre → id x = i →
  findIndex_from (λ c, String.eqb (id c) i) k (pre ++ x :: post)
  = (k + Z.of_nat (length pre))%Z.
Proof.
  revert k. induction pre as [|p pre IH]; intros k Hi Hx; simpl in *.
  - rewrite Hx, String.eqb_refl. lia.
  - apply not_elem_of_cons in Hi as [Hne Hi].
    destruct (String.eqb_spec (id p) i); [congruence|].
    rewrite IH by done. lia.
Qed.

Lemma findIndex_from_absent (i : string) (k : Z) (q : list ReplCommand) :
  i ∉ map id q → findIndex_from (λ c, String.eqb (id c) i) k q = (-1)%Z.
Proof.
  revert k. induction q as [|p q IH]; intros k Hi; simpl in *; [done|].
  apply not_elem_of_cons in Hi as [Hne Hi].
  destruct (String.eqb_spec (id p) i); [congruence|]. by apply IH.
Qed.

Lemma splice_insert_at {A} (pre rest : list A) (x : A) :
  splice_insert (Z.of_nat (length pre)) x (pre ++ rest) = pre ++ x :: rest.
Proof.
  unfold splice_insert. cbv zeta. rewrite length_app.
  destruct (Z.ltb_spec (Z.of_nat (length pre)) 0); [lia|].
  replace (Z.to_nat (Z.min _ _)) with (length pre) by lia.
  by rewrite take_app_length, drop_app_length.
Qed.

Lemma spliceLoop_at (mocks pre rest : list ReplCommand) :
  spliceLoop (Z.of_nat (length pre)) mocks (pre ++ rest) = pre ++ mocks ++ rest.
Proof.
  revert pre. induction mocks as [|m mocks IH]; intros pre; simpl; [done|].
  rewrite splice_insert_at.
  replace (Z.of_nat (length pre) + 1)%Z with (Z.of_nat (length (pre ++ [m])))
    by (rewrite length_app; simpl; lia).
  replace (pre ++ m :: rest) with ((pre ++ [m]) ++ rest) by by rewrite <- app_assoc.
  rewrite IH. by rewrite <- app_assoc.
Qed.

Lemma splice_insert_elem {A} (k : Z) (x y : A) (l : list A) :
  y ∈ splice_insert k x l ↔ y = x ∨ y ∈ l.
Proof.
  unfold splice_insert. cbv zeta.
  match goal with |- context [take ?n l] => generalize n; intros n' end.
  rewrite elem_of_app, elem_of_cons.
  rewrite <- (take_drop n' l) at 3.
  rewrite elem_of_app. tauto.
Qed.

Lemma spliceLoop_elem (k : Z) (mocks q : list ReplCommand) y :
  y ∈ spliceLoop k mocks q ↔ y ∈ mocks ∨ y ∈ q.
Proof.
  revert k q. induction mocks as [|m mocks IH]; intros k q; simpl.
  - rewrite elem_of_nil. tauto.
  - rewrite IH, splice_insert_elem, elem_of_cons. tauto.
Qed.

Lemma markIfNamed_already i st c : status c = st → markIfNamed i st c = c.
Proof.
  unfold markIfNamed. destruct c as [ci cs cy]; simpl. intros ->.
  by destruct (String.eqb ci i).
Qed.

Lemma markIfNamed_twice i st st' c :
  markIfNamed i st' (markIfNamed i st c) = markIfNamed i st' c.
Proof.
  unfold markIfNamed. destruct (String.eqb_spec (id c) i) as [E|E]; simpl.
  - by rewrite E, String.eqb_refl.
  - by destruct (String.eqb_spec (id c) i).
Qed.

Lemma map_markIfNamed_absent i st (q : list ReplCommand) :
  i ∉ map id q → map (markIfNamed i st) q = q.
Proof.
  induction q as [|c q IH]; simpl; [done|]. intros Hi.
  apply not_elem_of_cons in Hi as [Hne Hi].
  rewrite markIfNamed_other by done. by rewrite IH.
Qed.

Lemma map_markIfNamed_already i st (q : list ReplCommand) :
  Forall (λ c, status c = st) q → map (markIfNamed i st) q = q.
Proof.
  induction 1 as [|c q Hc _ IH]; simpl; [done|].
  rewrite markIfNamed_already by done. by rewrite IH.
Qed.


Section RunOne.
Context {client : ExecutionClient} {libs : Libraries}.

Lemma bind_inv {A B} (m : Async A) (k : A → Async B) w r w' :
  bind m k w = (r, w') →
  (∃ a w1, m w = (Resolved a, w1) ∧ k a w1 = (r, w')) ∨
  (∃ e, m w = (Rejected e, w') ∧ r = Rejected e).
Proof.
  unfold bind. destruct (m w) as [[a|e] w1]; [by eauto|].
  intros [= <- <-]. by eauto.
Qed.

(** The four ways [runCommand] can go, as equations. *)
Lemma runCommand_cases (c : ReplCommand) (w : World) :
  let w0 := (setCommandStatus (id c) running w).2 in
  match call_runCommand (yaml c) false w0 with
  | (Rejected _, w1) =>
      runCommand c w = (Resolved false, (setCommandStatus (id c) error w1).2)
  | (Resolved _, w1) =>
      if isMockGenerationEnabled w then
        match runGetMocks w1 with
        | (Resolved mocks, w2) =>
            runCommand c w
            = (Resolved true,
               (setCommandStatus (id c) success
                  (setRepl (insertMocks_updater c mocks) w2).2).2)
        | (Rejected _, w2) =>
            runCommand c w = (Resolved false, (setCommandStatus (id c) error w2).2)
        end
      else
        match flushMocks w1 with
        | (Resolved _, w2) =>
            runCommand c w = (Resolved true, (setCommandStatus (id c) success w2).2)
        | (Rejected _, w2) =>
            runCommand c w = (Resolved false, (setCommandStatus (id c) error w2).2)
        end
  end.
Proof.
  intros w0. unfold runCommand.
  change (bind (setCommandStatus (id c) running) ?k w) with (k tt w0).
  cbv beta. unfold try_catch.
  destruct (call_runCommand (yaml c) false w0) as [[[]|e] w1] eqn:Ecall;
    [|by rewrite (bind_rejected _ _ _ _ _ Ecall)].
  rewrite (bind_resolved _ _ _ _ _ Ecall).
  apply remote_trace in Ecall as (_ & _ & _ & _ & Hm & _).
  rewrite (bind_resolved _ _ w1 (isMockGenerationEnabled w) w1)
    by (cbv beta; rewrite Hm; reflexivity).
  destruct (isMockGenerationEnabled w).
  - destruct (runGetMocks w1) as [[mocks|e] w2] eqn:Emocks.
    + erewrite bind_resolved; [reflexivity|].
      by rewrite (bind_resolved _ _ _ _ _ Emocks).
    + erewrite bind_rejected; [reflexivity|].
      by rewrite (bind_rejected _ _ _ _ _ Emocks).
  - destruct (flushMocks w1) as [[[]|e] w2] eqn:Eflush.
    + by rewrite (bind_resolved _ _ _ _ _ Eflush).
    + by rewrite (bind_rejected _ _ _ _ _ Eflush).
Qed.

Lemma runCommand_resolves (c : ReplCommand) (w : World) :
  ∃ ok w', runCommand c w = (Resolved ok, w').
Proof.
  pose proof (runCommand_cases c w) as H. cbv zeta in H.
  repeat case_match; eauto.
Qed.

End RunOne.

(** ** Fetching the captured mocks *)

Section Mocks.
Context {client : ExecutionClient} {libs : Libraries}.

Lemma omapM_Forall2 {A B} (f : A → Outcome B) l ys :
  omapM f l = Resolved ys → Forall2 (λ x y, f x = Resolved y) l ys.
Proof.
  revert ys. induction l as [|x l IH]; intros ys; simpl.
  - intros [= <-]. constructor.
  - destruct (f x) as [y|e] eqn:Ex; simpl; [|done].
    destruct (omapM f l) as [ys'|e]; simpl; [|done].
    intros [= <-]. constructor; [done|]. by apply IH.
Qed.

Lemma drew_trans a b (w w1 w2 : World) :
  drew a w w1 → drew b w1 w2 → drew (a + b) w w2.
Proof.
  intros (?&?&?&?&?&?&?) (?&?&?&?&?&?&?). unfold drew.
  repeat split; try congruence. lia.
Qed.

Lemma drawnIds_app k a b :
  drawnIds k (a + b) = drawnIds k a ++ drawnIds (k + a) b.
Proof. unfold drawnIds. by rewrite seq_app, map_app. Qed.

Lemma flatMapM_parseCommands texts (w w' : World) cmds :
  flatMapM parseCommands texts w = (Resolved cmds, w') →
  ∃ yss,
    Forall2 (λ text ys, ∃ parsed, YAML_parse text = Resolved parsed ∧
                                  ys = parsedYamls parsed) texts yss ∧
    map yaml cmds = concat yss ∧
    map id cmds = drawnIds (uuid_calls w) (length cmds) ∧
    drew (length cmds) w w'.
Proof.
  revert w cmds. induction texts as [|text texts IH]; intros w cmds; simpl.
  - intros [= <- <-]. exists []. repeat split; try done; simpl; lia.
  - intros H. apply bind_inv in H as [(cs & w1 & Hp & H)|(e & _ & [=])].
    apply bind_inv in H as [(cs' & w2 & Hrest & H)|(e & _ & [=])].
    injection H as <- <-.
    apply parseCommands_inv in Hp as (parsed & Hparse & Hy & Hi & Hd).
    apply IH in Hrest as (yss & HF & Hy' & Hi' & Hd').
    exists (parsedYamls parsed :: yss). split; [constructor; eauto|].
    rewrite map_app, length_app, Hy, Hy'. split; [done|].
    rewrite map_app, Hi, Hi', drawnIds_app. split.
    { destruct Hd as (-> & _). done. }
    by eapply drew_trans.
Qed.

(** The three ways [runGetMocks] can go once the remote side has been
    asked. *)
Lemma runGetMocks_cases (w : World) :
  match call_getMock w with
  | (Rejected e, w1) => runGetMocks w = (Rejected e, w1)
  | (Resolved rawResult, w1) =>
      match JSON_parse rawResult with
      | Resolved (JArr records) =>
          runGetMocks w
          = bind (lift (omapM mockYaml records))
              (λ yamls, bind (flatMapM parseCommands yamls)
                          (λ cs, ret (map (withStatus success) cs))) w1
      | _ =>
          runGetMocks w
          = (Resolved [],
             (setErrorMessage (Some "Error parsing API response") w1).2)
      end
  end.
Proof.
  unfold runGetMocks.
  destruct (call_getMock w) as [[raw|e] w1] eqn:Ecall;
    [|by rewrite (bind_rejected _ _ _ _ _ Ecall)].
  rewrite (bind_resolved _ _ _ _ _ Ecall).
  unfold bind at 1, try_catch, bind at 1, parseMockArray, bind at 1, lift.
  destruct (JSON_parse raw) as [[]|]; reflexivity.
Qed.

Lemma runGetMocks_success (w w2 : World) mocks :
  runGetMocks w = (Resolved mocks, w2) →
  Forall (λ m, status m = success) mocks.
Proof.
  pose proof (runGetMocks_cases w) as H.
  destruct (call_getMock w) as [[raw|e] w1]; [|by rewrite H].
  assert (∀ cs : list ReplCommand,
            Forall (λ m, status m = success) (map (withStatus success) cs)) as Hall.
  { intros cs. induction cs; simpl; by constructor. }
  destruct (JSON_parse raw) as [[]|]; rewrite H; try (by intros [= <- <-]).
  intros E. apply bind_inv in E as [(ys & w3 & _ & E)|(? & _ & [=])].
  apply bind_inv in E as [(cs & w4 & _ & E)|(? & _ & [=])].
  injection E as <- <-. apply Hall.
Qed.

Lemma runGetMocks_array (w w1 w2 : World) rawResult records mocks :
  call_getMock w = (Resolved rawResult, w1) →
  JSON_parse rawResult = Resolved (JArr records) →
  runGetMocks w = (Resolved mocks, w2) →
  ∃ yss,
    Forall2 (λ item ys, recordYamls item = Resolved ys) records yss ∧
    map yaml mocks = concat yss ∧
    map id mocks = drawnIds (uuid_calls w) (length mocks).
Proof.
  intros Ecall Eparse. pose proof (runGetMocks_cases w) as H.
  rewrite Ecall, Eparse in H. rewrite H. clear H. intros E.
  apply bind_inv in E as [(texts & w3 & Htexts & E)|(? & _ & [=])].
  apply bind_inv in E as [(cs & w4 & Hcs & E)|(? & _ & [=])].
  injection E as <- <-. unfold lift in Htexts. injection Htexts as Htexts <-.
  apply omapM_Forall2 in Htexts.
  apply flatMapM_parseCommands in Hcs as (yss & HF & Hy & Hi & _).
  apply remote_trace in Ecall as (_ & _ & _ & _ & _ & Hu).
  exists yss. split; [|split].
  - clear -Htexts HF. revert yss HF.
    induction Htexts as [|item text records texts Hm _ IH]; intros yss HF.
    + inversion HF. constructor.
    + inversion HF as [|? ys ? yss' (parsed & Hp & ->) HF']; subst.
      constructor; [|by apply IH].
      unfold recordYamls. rewrite Hm. simpl. by rewrite Hp.
  - rewrite <- Hy. clear. induction cs as [|c cs IH]; simpl; by f_equal.
  - rewrite length_map, <- Hu, <- Hi.
    clear. induction cs as [|c cs IH]; simpl; by f_equal.
Qed.

End Mocks.

(** ** Mock interleaving *)

Section MockInterleaving.
Context {client : ExecutionClient} {libs : Libraries}.

Lemma runCommand_true_mock_inv (X : ReplCommand) (w w' : World) :
  isMockGenerationEnabled w = true →
  runCommand X w = (Resolved true, w') →
  ∃ w1 w2 mocks,
    call_runCommand (yaml X) false (setCommandStatus (id X) running w).2
    = (Resolved tt, w1) ∧
    runGetMocks w1 = (Resolved mocks, w2) ∧
    w' = (setCommandStatus (id X) success
            (setRepl (insertMocks_updater X mocks) w2).2).2.
Proof.
  intros Hmock Hrun. pose proof (runCommand_cases X w) as H. cbv zeta in H.
  rewrite Hmock in H.
  destruct (call_runCommand _ _ _) as [[[]|e] w1];
    [|by rewrite Hrun in H].
  destruct (runGetMocks w1) as [[mocks|e] w2] eqn:Em; [|by rewrite Hrun in H].
  exists w1, w2, mocks. split; [done|]. split; [done|].
  rewrite Hrun in H. by injection H.
Qed.

Lemma queue_after_mocks (X X0 : ReplCommand) pre post mocks :
  id X0 = id X → id X ∉ map id pre →
  Forall (λ m, status m = success) mocks →
  let q0 := map (markIfNamed (id X) running) (pre ++ X0 :: post) in
  map (markIfNamed (id X) success)
    (spliceLoop (findIndex (λ c, String.eqb (id c) (id X)) q0) mocks q0)
  = pre ++ mocks ++ withStatus success X0
        :: map (markIfNamed (id X) success) post.
Proof.
  intros HX Hpre Hmocks q0. subst q0. rewrite map_app. cbn [map].
  rewrite (map_markIfNamed_absent _ _ pre) by done.
  unfold findIndex. rewrite findIndex_from_app;
    [|done|by rewrite markIfNamed_id].
  rewrite Z.add_0_l, spliceLoop_at, !map_app. cbn [map].
  rewrite (map_markIfNamed_absent _ _ pre) by done.
  rewrite (map_markIfNamed_already _ _ mocks) by done.
  rewrite markIfNamed_twice, (markIfNamed_same _ _ X0) by done.
  do 3 f_equal. rewrite map_map. apply map_ext. intros c.
  apply markIfNamed_twice.
Qed.

(** C1 (as the code has it).  Let mock-generation mode be enabled, let
    [X0] be the first entry of the queue with the id of [X], and let
    [runCommand X] succeed.  Then the remote run was accepted, the mocks
    were fetched, and the queue left behind is the old one with the
    fetched commands, all [success], inserted in their order at the
    position [X0] had, that is immediately before it; [X0] follows them
    with status [success].  When the capture response is an array of
    records, the payloads of the inserted commands are those built from
    the records, record by record in the order of the response. *)
Theorem runCommand_inserts_mocks_before
  (X X0 : ReplCommand) (pre post : list ReplCommand) (w w' : World) :
  isMockGenerationEnabled w = true →
  commands (repl w) = pre ++ X0 :: post →
  id X0 = id X →
  id X ∉ map id pre →
  runCommand X w = (Resolved true, w') →
  ∃ w1 w2 mocks,
    call_runCommand (yaml X) false (setCommandStatus (id X) running w).2
    = (Resolved tt, w1) ∧
    runGetMocks w1 = (Resolved mocks, w2) ∧
    Forall (λ m, status m = success) mocks ∧
    commands (repl w')
    = pre ++ mocks ++ withStatus success X0
          :: map (markIfNamed (id X) success) post ∧
    splicedAt (length pre) mocks (commands (repl w)) (commands (repl w')) ∧
    (∀ rawResult w1' records,
       call_getMock w1 = (Resolved rawResult, w1') →
       JSON_parse rawResult = Resolved (JArr records) →
       ∃ yss, Forall2 (λ item ys, recordYamls item = Resolved ys) records yss ∧
              map yaml mocks = concat yss).
Proof.
  intros Hmock Hq HX Hpre Hrun.
  destruct (runCommand_true_mock_inv X w w' Hmock Hrun)
    as (w1 & w2 & mocks & Ecall & Emocks & ->).
  exists w1, w2, mocks. split; [done|]. split; [done|].
  pose proof (runGetMocks_success _ _ _ Emocks) as Hs. split; [done|].
  assert (commands (repl w2) = map (markIfNamed (id X) running) (pre ++ X0 :: post))
    as Hq2.
  { destruct (quiet_runGetMocks w1) as (Hr & _). rewrite Emocks in Hr.
    simpl in Hr. rewrite Hr.
    apply remote_trace in Ecall as (_ & -> & _). simpl.
    by rewrite Hq. }
  assert (commands (repl (setCommandStatus (id X) success
                            (setRepl (insertMocks_updater X mocks) w2).2).2)
          = pre ++ mocks ++ withStatus success X0
                :: map (markIfNamed (id X) success) post) as Hfinal.
  { cbn [setCommandStatus setRepl snd repl]. rewrite setStatus_commands.
    cbn [insertMocks_updater commands]. rewrite Hq2.
    by apply queue_after_mocks. }
  split; [done|]. split.
  - unfold splicedAt. rewrite Hfinal, Hq.
    rewrite take_app_length.
    rewrite drop_app_length. rewrite !map_app. cbn [map withStatus id].
    do 3 f_equal. clear. induction post as [|c post IH]; simpl; [done|].
    by rewrite markIfNamed_id, IH.
  - intros raw w1' records Eget Eparse.
    destruct (runGetMocks_array _ _ _ _ _ _ Eget Eparse Emocks) as (yss & ? & ? & _).
    by exists yss.
Qed.


End MockInterleaving.

(** ** Running a run-set *)

Lemma elem_of_map_markIfNamed i st (q : list ReplCommand) x :
  x ∈ map (markIfNamed i st) q ↔ ∃ y, y ∈ q ∧ x = markIfNamed i st y.
Proof.
  rewrite list_elem_of_In, in_map_iff. split.
  - intros (y & <- & Hy). exists y. by rewrite list_elem_of_In.
  - intros (y & Hy & ->). exists y. by rewrite <- list_elem_of_In.
Qed.

Lemma allNamed_mark_same i st q : allNamed i st (map (markIfNamed i st) q).
Proof.
  intros x Hx Hi. apply elem_of_map_markIfNamed in Hx as (y & _ & ->).
  rewrite markIfNamed_id in Hi. by rewrite markIfNamed_same.
Qed.

Lemma allNamed_mark_other i j st st' q :
  i ≠ j → allNamed i st q → allNamed i st (map (markIfNamed j st') q).
Proof.
  intros Hne Hq x Hx Hi. apply elem_of_map_markIfNamed in Hx as (y & Hy & ->).
  rewrite markIfNamed_id in Hi. rewrite markIfNamed_other by congruence.
  by apply Hq.
Qed.

Lemma allNamed_spliceLoop i k mocks q :
  Forall (λ m, status m = success) mocks →
  allNamed i success q → allNamed i success (spliceLoop k mocks q).
Proof.
  intros Hm Hq x Hx Hi. apply spliceLoop_elem in Hx as [Hx|Hx]; [|by apply Hq].
  rewrite Forall_forall in Hm. by apply Hm.
Qed.

Lemma spliceLoop_ids_subseteq k mocks (q : list ReplCommand) :
  map id q ⊆ map id (spliceLoop k mocks q).
Proof.
  intros i Hi. apply list_elem_of_In, in_map_iff in Hi as (x & <- & Hx).
  apply list_elem_of_In, in_map. apply list_elem_of_In, spliceLoop_elem.
  right. by apply list_elem_of_In.
Qed.

Lemma map_markIfNamed_ids i st (q : list ReplCommand) :
  map id (map (markIfNamed i st) q) = map id q.
Proof.
  rewrite map_map. apply map_ext. intros c. apply markIfNamed_id.
Qed.

Section RunSet.
Context {client : ExecutionClient} {libs : Libraries}.

Lemma quiet_flushMocks : keeps quiet flushMocks.
Proof. by apply quiet_remote. Qed.

(** What one [runCommand] does to the queue and to the trace, whatever
    way it goes. *)
Lemma runCommand_effect (c : ReplCommand) (w w' : World) (ok : bool) :
  runCommand c w = (Resolved ok, w') →
  ∃ mocks,
    Forall (λ m, status m = success) mocks ∧
    (let q0 := map (markIfNamed (id c) running) (commands (repl w)) in
     commands (repl w')
     = map (markIfNamed (id c) (if ok then success else error))
         (spliceLoop (findIndex (λ x, String.eqb (id x) (id c)) q0) mocks q0)) ∧
    dispatched (api_trace w') = dispatched (api_trace w) ++ [yaml c] ∧
    isMockGenerationEnabled w' = isMockGenerationEnabled w.
Proof.
  intros Hrun. pose proof (runCommand_cases c w) as H. cbv zeta in H.
  destruct (call_runCommand _ _ _) as [[[]|e] w1] eqn:Ecall.
  - apply remote_trace in Ecall as (Ht & Hr & _ & _ & Hm & _).
    destruct (isMockGenerationEnabled w) eqn:Hmock.
    + pose proof (quiet_runGetMocks w1) as (Hr2 & _ & Hm2 & Ht2).
      pose proof (runGetMocks_success w1) as Hs.
      destruct (runGetMocks w1) as [[mocks|e] w2];
        rewrite Hrun in H; injection H as -> ->; simpl in Hr2, Hm2, Ht2.
      * exists mocks. split; [by eapply Hs|].
        cbn [setCommandStatus setRepl snd repl api_trace isMockGenerationEnabled].
        rewrite setStatus_commands. cbn [insertMocks_updater commands].
        rewrite Hr2, Hr, Ht2, Ht, Hm2, Hm, dispatched_snoc. by simpl.
      * exists []. split; [constructor|].
        cbn [setCommandStatus setRepl snd repl api_trace isMockGenerationEnabled].
        rewrite setStatus_commands. cbn [spliceLoop].
        rewrite Hr2, Hr, Ht2, Ht, Hm2, Hm, dispatched_snoc. by simpl.
    + pose proof (quiet_flushMocks w1) as (Hr2 & _ & Hm2 & Ht2).
      exists []. split; [constructor|].
      destruct (flushMocks w1) as [[[]|e] w2];
        rewrite Hrun in H; injection H as -> ->; simpl in Hr2, Hm2, Ht2;
        cbn [setCommandStatus setRepl snd repl api_trace isMockGenerationEnabled];
        rewrite setStatus_commands; cbn [spliceLoop];
        rewrite Hr2, Hr, Ht2, Ht, Hm2, Hm, dispatched_snoc; by simpl.
  - apply remote_trace in Ecall as (Ht & Hr & _ & _ & Hm & _).
    rewrite Hrun in H. injection H as -> ->.
    exists []. split; [constructor|].
    cbn [setCommandStatus setRepl snd repl api_trace isMockGenerationEnabled].
    rewrite setStatus_commands. cbn [spliceLoop].
    rewrite Hr, Ht, Hm, dispatched_snoc. by simpl.
Qed.


Lemma cancelAll_cons c rest (q : list ReplCommand) :
  cancelAll (c :: rest) q = cancelAll rest (map (markIfNamed (id c) canceled) q).
Proof. reflexivity. Qed.

Lemma cancelAll_ids rest (q : list ReplCommand) :
  map id (cancelAll rest q) = map id q.
Proof.
  revert q. induction rest as [|c rest IH]; intros q; [done|].
  by rewrite cancelAll_cons, IH, map_markIfNamed_ids.
Qed.

Lemma cancelAll_other rest q i st :
  i ∉ map id rest → allNamed i st q → allNamed i st (cancelAll rest q).
Proof.
  revert q. induction rest as [|c rest IH]; intros q Hi Hq; [done|].
  cbn [map] in Hi. apply not_elem_of_cons in Hi as [Hne Hi].
  rewrite cancelAll_cons. apply IH; [done|].
  by apply allNamed_mark_other.
Qed.

Lemma cancelAll_named rest q i :
  NoDup (map id rest) → i ∈ map id rest → allNamed i canceled (cancelAll rest q).
Proof.
  revert q. induction rest as [|c rest IH]; intros q Hnd Hi;
    [by apply elem_of_nil in Hi|].
  cbn [map] in Hi, Hnd. apply NoDup_cons in Hnd as [Hc Hnd].
  rewrite cancelAll_cons.
  apply elem_of_cons in Hi as [->|Hi]; [|by apply IH].
  apply cancelAll_other; [done|]. apply allNamed_mark_same.
Qed.

(** Once the abort flag is up, the loop only marks: it ends with the flag
    up, makes no call and changes nothing but the queue. *)
Lemma runLoop_aborted (rest : list ReplCommand) (w : World) :
  ∃ w', runLoop true rest w = (Resolved true, w') ∧
    queueOnly w w' ∧
    commands (repl w') = cancelAll rest (commands (repl w)).
Proof.
  revert w. induction rest as [|c rest IH]; intros w.
  - exists w. by repeat split.
  - destruct (IH (setCommandStatus (id c) canceled w).2) as (w' & E & Hq & Hc).
    exists w'. split; [exact E|]. split; [|by rewrite Hc].
    destruct Hq as (?&?&?&?&?). by repeat split.
Qed.

Lemma forEach_pending (cmds : list ReplCommand) (w : World) :
  ∃ w0, forEach (λ c, setCommandStatus (id c) pending) cmds w = (Resolved tt, w0) ∧
    queueOnly w w0 ∧
    map id (commands (repl w0)) = map id (commands (repl w)).
Proof.
  revert w. induction cmds as [|c cmds IH]; intros w.
  - exists w. by repeat split.
  - destruct (IH (setCommandStatus (id c) pending w).2) as (w0 & E & Hq & Hi).
    exists w0. split; [exact E|]. split.
    + destruct Hq as (?&?&?&?&?). by repeat split.
    + rewrite Hi. apply setStatus_ids.
Qed.

(** The loop always returns; the payloads it executes are those of a
    prefix of the run-set, in order, and of the whole run-set when it
    ends with the abort flag down. *)
Lemma runLoop_trace (cmds : list ReplCommand) (abort0 : bool) (w : World) :
  ∃ abort w' n, runLoop abort0 cmds w = (Resolved abort, w') ∧
    dispatched (api_trace w')
    = dispatched (api_trace w) ++ map yaml (take n cmds) ∧
    (abort0 = true → n = 0) ∧
    (abort = false → abort0 = false ∧ n = length cmds).
Proof.
  revert abort0 w. induction cmds as [|c cmds IH]; intros abort0 w.
  - exists abort0, w, 0. cbn [take map]. rewrite app_nil_r. by repeat split.
  - destruct abort0.
    + destruct (runLoop_aborted (c :: cmds) w) as (w' & E & (_&_&_&_&Ht) & _).
      exists true, w', 0. rewrite E, Ht. cbn [take map]. rewrite app_nil_r.
      by repeat split.
    + destruct (runCommand_resolves c w) as (ok & w1 & E1).
      destruct (runCommand_effect c w w1 ok E1) as (_ & _ & _ & Ht1 & _).
      destruct (IH (if ok then false else true) w1)
        as (abort & w' & n & E & Ht & Hn0 & Hn).
      cbn [runLoop]. rewrite (bind_resolved _ _ _ _ _ E1), E.
      destruct ok.
      * exists abort, w', (S n). rewrite Ht, Ht1, <- app_assoc.
        split; [done|]. split; [done|]. split; [done|]. intros Ha.
        destruct (Hn Ha) as [_ ->]. by split.
      * exists abort, w', 1. rewrite Ht, Ht1, (Hn0 eq_refl).
        cbn [take map]. rewrite take_0, app_nil_r.
        split; [done|]. split; [done|]. split; [done|]. intros Ha.
        by destruct (Hn Ha).
Qed.

(** A prefix that ran without raising the abort flag. *)
Lemma runLoop_prefix (pre : list ReplCommand) (w0 w1 : World) :
  runLoop false pre w0 = (Resolved false, w1) →
  (∀ rest, runLoop false (pre ++ rest) w0 = runLoop false rest w1) ∧
  dispatched (api_trace w1) = dispatched (api_trace w0) ++ map yaml pre ∧
  map id (commands (repl w0)) ⊆ map id (commands (repl w1)) ∧
  (∀ i, i ∉ map id pre →
        allNamed i success (commands (repl w0)) →
        allNamed i success (commands (repl w1))) ∧
  (NoDup (map id pre) →
   ∀ i, i ∈ map id pre → allNamed i success (commands (repl w1))).
Proof.
  revert w0. induction pre as [|c pre IH]; intros w0 Hrun.
  - injection Hrun as <-. cbn [map]. rewrite app_nil_r.
    repeat split; try done. intros _ i Hi. by apply elem_of_nil in Hi.
  - cbn [runLoop] in Hrun.
    destruct (runCommand_resolves c w0) as (ok & wa & Ea).
    rewrite (bind_resolved _ _ _ _ _ Ea) in Hrun.
    destruct ok.
    2: { destruct (runLoop_aborted pre wa) as (w' & E & _).
         rewrite E in Hrun. done. }
    destruct (runCommand_effect c w0 wa true Ea) as (mocks & Hs & Hq & Ht & _).
    cbv zeta in Hq.
    destruct (IH wa Hrun) as (Happ & Htr & Hids & Hother & Hnamed).
    assert (∀ i, i ≠ id c → allNamed i success (commands (repl w0)) →
                 allNamed i success (commands (repl wa))) as Hstep.
    { intros i Hne Hi. rewrite Hq. apply allNamed_mark_other; [done|].
      apply allNamed_spliceLoop; [done|]. by apply allNamed_mark_other. }
    split; [|split; [|split; [|split]]].
    + intros rest. cbn [app runLoop]. rewrite (bind_resolved _ _ _ _ _ Ea).
      apply Happ.
    + rewrite Htr, Ht. cbn [map]. by rewrite <- app_assoc.
    + etransitivity; [|exact Hids]. rewrite Hq, map_markIfNamed_ids.
      etransitivity; [|apply spliceLoop_ids_subseteq].
      by rewrite map_markIfNamed_ids.
    + intros i Hi Hall. cbn [map] in Hi. apply not_elem_of_cons in Hi as [Hne Hi].
      apply Hother; [done|]. by apply Hstep.
    + intros Hnd i Hi. cbn [map] in Hi, Hnd. apply NoDup_cons in Hnd as [Hc Hnd].
      apply elem_of_cons in Hi as [->|Hi]; [|by apply Hnamed].
      apply Hother; [done|]. rewrite Hq. apply allNamed_mark_same.
Qed.

End RunSet.

Section RunProtocol.
Context {client : ExecutionClient} {libs : Libraries}.

(** C3.  Let the run-set [pre ++ k :: post] have no duplicate ids, let
    every command of [pre] run without raising the abort flag and let
    [runCommand k] return [false].  Then [runCommands] returns [false];
    nothing at all is sent to the remote side after the failure of [k], so
    that the payloads executed are those of [pre] and [k]; and in the
    queue left behind every entry named by [pre] is [success], every entry
    named [k] is [error] and every entry named by [post] is [canceled].
    No id leaves the queue during the run. *)
Theorem runCommands_failure
  (pre post : list ReplCommand) (k : ReplCommand) (w w0 w1 w2 : World) :
  NoDup (map id (pre ++ k :: post)) →
  forEach (λ c, setCommandStatus (id c) pending) (pre ++ k :: post) w
  = (Resolved tt, w0) →
  runLoop false pre w0 = (Resolved false, w1) →
  runCommand k w1 = (Resolved false, w2) →
  ∃ w', runCommands (pre ++ k :: post) w = (Resolved false, w') ∧
    api_trace w' = api_trace w2 ∧
    dispatched (api_trace w')
    = dispatched (api_trace w) ++ map yaml (pre ++ [k]) ∧
    (∀ i, i ∈ map id pre → allNamed i success (commands (repl w'))) ∧
    allNamed (id k) error (commands (repl w')) ∧
    (∀ i, i ∈ map id post → allNamed i canceled (commands (repl w'))) ∧
    map id (commands (repl w)) ⊆ map id (commands (repl w')).
Proof.
  intros Hnd Hpending Hpre Hk.
  rewrite map_app in Hnd. cbn [map] in Hnd.
  apply NoDup_app in Hnd as (Hnd_pre & Hdisj & Hnd_k).
  apply NoDup_cons in Hnd_k as (Hk_post & Hnd_post).
  destruct (runLoop_prefix pre w0 w1 Hpre) as (Happ & Htr & Hids & _ & Hnamed).
  destruct (runCommand_effect k w1 w2 false Hk) as (mocks & Hs & Hq & Ht & _).
  cbv zeta in Hq.
  destruct (runLoop_aborted post w2) as (w' & E & (_&_&_&_&Htrace) & Hc).
  destruct (forEach_pending (pre ++ k :: post) w) as (w0' & E0 & (_&_&_&_&Ht0) & Hi0).
  rewrite Hpending in E0. injection E0 as <-.
  exists w'. split.
  { unfold runCommands. rewrite (bind_resolved _ _ _ _ _ Hpending).
    rewrite (bind_resolved _ _ w0 true w'); [done|].
    rewrite Happ. cbn [runLoop]. by rewrite (bind_resolved _ _ _ _ _ Hk). }
  split; [done|]. split; [|split; [|split; [|split]]].
  - rewrite Htrace, Ht, Htr, Ht0, map_app, <- app_assoc. done.
  - intros i Hi. rewrite Hc. apply cancelAll_other.
    { intros Hi'. apply (Hdisj i Hi). by right. }
    rewrite Hq. apply allNamed_mark_other.
    { intros ->. apply (Hdisj (id k) Hi). by left. }
    apply allNamed_spliceLoop; [done|]. apply allNamed_mark_other.
    { intros ->. apply (Hdisj (id k) Hi). by left. }
    by apply Hnamed.
  - rewrite Hc. apply cancelAll_other; [done|]. rewrite Hq.
    apply allNamed_mark_same.
  - intros i Hi. rewrite Hc. by apply cancelAll_named.
  - rewrite Hc, cancelAll_ids, Hq, map_markIfNamed_ids.
    etransitivity; [|apply spliceLoop_ids_subseteq].
    rewrite map_markIfNamed_ids. etransitivity; [|exact Hids]. by rewrite Hi0.
Qed.

Lemma allSucceed_runLoop (cmds : list ReplCommand) (w w' : World) :
  allSucceed cmds w w' → runLoop false cmds w = (Resolved false, w').
Proof.
  revert w. induction cmds as [|c cmds IH]; intros w Hall.
  - cbn [allSucceed] in Hall. by subst.
  - destruct Hall as (w1 & E & Hall). cbn [runLoop].
    rewrite (bind_resolved _ _ _ _ _ E). by apply IH.
Qed.

(** A run-set either runs through or has a first command that fails. *)
Lemma allSucceed_or_first_failure (cmds : list ReplCommand) (w : World) :
  (∃ w1, allSucceed cmds w w1) ∨
  (∃ pre k post w1 w2,
     cmds = pre ++ k :: post ∧
     allSucceed pre w w1 ∧
     runCommand k w1 = (Resolved false, w2)).
Proof.
  revert w. induction cmds as [|c cmds IH]; intros w; [left; by exists w|].
  destruct (runCommand_resolves c w) as ([|] & wa & E).
  - destruct (IH wa) as [(w1 & Hall)|(pre & k & post & w1 & w2 & -> & Hall & Ek)].
    + left. exists w1, wa. by split.
    + right. exists (c :: pre), k, post, w1, w2.
      split; [done|]. split; [by exists wa|done].
  - right. exists [], c, cmds, w, wa. by repeat split.
Qed.

(** C6.  [runCommandIds ids] runs the commands of the current queue whose
    id is in [ids], selected in the order of the queue: the selection is a
    subsequence of the queue, holds exactly the entries named by [ids], and
    does not depend on the order or the repetitions of [ids].  After the
    selection is marked [pending], its commands are executed in that order:
    when every one of them succeeds, [runCommandIds] returns [true] and the
    payloads sent to the remote side are exactly those of the selection, in
    queue order; when [k] is the first that fails, it returns [false], the
    payloads sent are exactly those of the commands up to and including
    [k], and nothing is sent after the failure.  One of the two always
    happens. *)
Theorem runCommandIds_queue_order (ids : list string) (w : World) :
  let selection := selectCommands ids (repl w) in
  let w0 := (forEach (λ c, setCommandStatus (id c) pending) selection w).2 in
  sublist selection (commands (repl w)) ∧
  (∀ c, c ∈ selection ↔ c ∈ commands (repl w) ∧ id c ∈ ids) ∧
  (∀ ids', (∀ i, i ∈ ids ↔ i ∈ ids') → selectCommands ids' (repl w) = selection) ∧
  runCommandIds ids w = runCommands selection w ∧
  (∀ w1, allSucceed selection w0 w1 →
         runCommandIds ids w = (Resolved true, w1) ∧
         dispatched (api_trace w1)
         = dispatched (api_trace w) ++ map yaml selection) ∧
  (∀ pre k post w1 w2,
     selection = pre ++ k :: post →
     allSucceed pre w0 w1 →
     runCommand k w1 = (Resolved false, w2) →
     ∃ w', runCommandIds ids w = (Resolved false, w') ∧
       dispatched (api_trace w')
       = dispatched (api_trace w) ++ map yaml (pre ++ [k]) ∧
       api_trace w' = api_trace w2) ∧
  ((∃ w1, allSucceed selection w0 w1) ∨
   (∃ pre k post w1 w2,
      selection = pre ++ k :: post ∧
      allSucceed pre w0 w1 ∧
      runCommand k w1 = (Resolved false, w2))).
Proof.
  intros selection w0.
  split; [apply sublist_filter|].
  split; [intros c; unfold selection, selectCommands;
          rewrite list_elem_of_filter; tauto|].
  split; [intros ids' Hids; apply list_filter_iff; intros c; by rewrite Hids|].
  split; [done|].
  destruct (forEach_pending selection w) as (w0' & E0 & (_&_&_&_&Ht0) & _).
  assert (w0 = w0') as Hw0 by (unfold w0; by rewrite E0).
  assert (∀ b w1, runLoop false selection w0' = (Resolved b, w1) →
                  runCommandIds ids w = (Resolved (negb b), w1)) as Hrun.
  { intros b w1 E. unfold runCommandIds, runCommands. fold selection.
    rewrite (bind_resolved _ _ _ _ _ E0).
    by rewrite (bind_resolved _ _ _ _ _ E). }
  rewrite Hw0. clear Hw0 w0. split; [|split].
  - intros w1 Hall. apply allSucceed_runLoop in Hall.
    split; [exact (Hrun false w1 Hall)|].
    destruct (runLoop_prefix selection w0' w1 Hall) as (_ & Htr & _).
    by rewrite Htr, Ht0.
  - intros pre k post w1 w2 Hsel Hall Ek. apply allSucceed_runLoop in Hall.
    destruct (runLoop_prefix pre w0' w1 Hall) as (Happ & Htr & _).
    destruct (runCommand_effect k w1 w2 false Ek) as (_ & _ & _ & Ht & _).
    destruct (runLoop_aborted post w2) as (w' & E & (_&_&_&_&Htrace) & _).
    exists w'. split; [|split; [|done]].
    + apply (Hrun true). rewrite Hsel, Happ. cbn [runLoop].
      by rewrite (bind_resolved _ _ _ _ _ Ek).
    + by rewrite Htrace, Ht, Htr, Ht0, map_app, <- app_assoc.
  - apply allSucceed_or_first_failure.
Qed.

End RunProtocol.

(** ** Persistence *)

Lemma restoreReviver_truthy key v : truthy v = true → restoreReviver key v = v.
Proof. unfold restoreReviver. intros ->. by rewrite andb_false_r. Qed.

Lemma internalize_commandToJs key c :
  internalize restoreReviver key (commandToJs c) = commandToJs c.
Proof. cbn. by apply restoreReviver_truthy. Qed.

Lemma internalize_commands key (cs : list ReplCommand) :
  internalize restoreReviver key (JArr (map commandToJs cs))
  = JArr (map commandToJs cs).
Proof.
  cbn [internalize]. rewrite restoreReviver_truthy by done. f_equal.
  generalize 0. induction cs as [|c cs IH]; intros n; [done|].
  cbn [map]. rewrite IH. f_equal. apply internalize_commandToJs.
Qed.

Lemma internalize_replToJs (r : Repl) :
  internalize restoreReviver "" (replToJs r) = replToJs r.
Proof.
  unfold replToJs.
  change (internalize restoreReviver "" (JObj [("commands", ?a)]))
    with (restoreReviver ""
            (JObj (match internalize restoreReviver "commands" a with
                   | JUndefined => []
                   | e' => [("commands", e')]
                   end))).
  by rewrite internalize_commands.
Qed.

Lemma statusOfText_statusText st : statusOfText (statusText st) = Some st.
Proof. by destruct st. Qed.

Lemma commandOfJs_commandToJs c : commandOfJs (commandToJs c) = Some c.
Proof.
  destruct c as [i st y]. unfold commandOfJs, commandToJs. cbn.
  by rewrite statusOfText_statusText.
Qed.

Lemma replOfJs_replToJs r : replOfJs (replToJs r) = Some r.
Proof.
  destruct r as [cs]. unfold replOfJs, replToJs. cbn.
  assert (commandsOfJs (map commandToJs cs) = Some cs) as ->; [|done].
  induction cs as [|c cs IH]; [done|].
  cbn [map commandsOfJs]. by rewrite commandOfJs_commandToJs, IH.
Qed.

Section Persistence.
Context {client : ExecutionClient} {libs : Libraries}.

(** C9.  Let [r] be a queue state whose serialisation the JSON codec
    decodes back to the value that was serialised (and which is not the
    empty text).  Then every [setRepl] that leaves [r] leaves the text
    [persist r] in the durable slot, restoring from that text yields the
    value of [r] again, and read at type [Repl] it is [r]: the same
    commands in the same order, with their ids, payloads and statuses. *)
Theorem restore_persisted (r : Repl) :
  JSON_parse (JSON_stringify (replToJs r)) = Resolved (replToJs r) →
  JSON_stringify (replToJs r) ≠ "" →
  (∀ updater (w : World),
     updater (repl w) = r →
     localStorage_repl (setRepl updater w).2 = Some (persist r)) ∧
  restoreRepl (Some (persist r)) = Resolved (replToJs r) ∧
  replOfJs (replToJs r) = Some r.
Proof.
  intros Hround Hne. split; [|split].
  - intros updater w <-. reflexivity.
  - unfold restoreRepl, persist.
    destruct (String.eqb_spec (JSON_stringify (replToJs r)) ""); [done|].
    rewrite Hround. cbn [obind]. by rewrite internalize_replToJs.
  - apply replOfJs_replToJs.
Qed.

(** Restoring from an absent or empty slot gives the empty queue. *)
Lemma restoreRepl_absent :
  restoreRepl None = Resolved (replToJs initialState) ∧
  restoreRepl (Some "") = Resolved (replToJs initialState).
Proof. by split. Qed.

End Persistence.

(** * Further properties of the queue operations *)

(** ** Delete *)

Lemma filter_ids_NoDup (P : ReplCommand → Prop) `{!∀ c, Decision (P c)}
  (q : list ReplCommand) :
  NoDup (map id q) → NoDup (map id (filter P q)).
Proof.
  induction q as [|c q IH]; intros Hnd; [done|].
  cbn [map] in Hnd. apply NoDup_cons in Hnd as [Hc Hnd].
  rewrite filter_cons. destruct (decide (P c)); [|by apply IH].
  cbn [map]. apply NoDup_cons. split; [|by apply IH].
  intros Hin. apply Hc.
  apply list_elem_of_In, in_map_iff in Hin as (x & Hx & Hin).
  apply list_elem_of_In, list_elem_of_filter in Hin as [_ Hin].
  rewrite <- Hx. apply list_elem_of_In, in_map. by apply list_elem_of_In.
Qed.

Lemma filter_all {A} (P : A → Prop) `{!∀ x, Decision (P x)} (l : list A) :
  (∀ x, x ∈ l → P x) → filter P l = l.
Proof.
  induction l as [|x l IH]; intros Hall; [done|].
  rewrite filter_cons_True by (apply Hall; left).
  f_equal. apply IH. intros y Hy. apply Hall. by right.
Qed.

Section Delete.
Context {client : ExecutionClient} {libs : Libraries}.

(** X1.  [deleteCommands ids] keeps exactly the commands whose id is not in
    [ids], unchanged and in their order; it changes nothing when no id of
    [ids] names a command, and it keeps the ids of the queue distinct. *)
Theorem deleteCommands_spec (ids : list string) (w : World) :
  ∃ w', deleteCommands ids w = (Resolved tt, w') ∧
    let q := commands (repl w) in
    let q' := commands (repl w') in
    sublist q' q ∧
    (∀ c, c ∈ q' ↔ c ∈ q ∧ id c ∉ ids) ∧
    ((∀ i, i ∈ ids → i ∉ map id q) → repl w' = repl w) ∧
    (NoDup (map id q) → NoDup (map id q')).
Proof.
  eexists. split; [reflexivity|]. cbn [deleteCommands setRepl snd repl].
  unfold deleteCommands_updater. cbn [commands].
  split; [apply sublist_filter|].
  split; [intros c; rewrite list_elem_of_filter; tauto|].
  split; [|apply filter_ids_NoDup].
  intros Hids. destruct (repl w) as [q]. cbn [commands] in *. f_equal.
  apply filter_all. intros c Hc Hin. apply (Hids _ Hin).
  apply list_elem_of_In, in_map. by apply list_elem_of_In.
Qed.

(** X2.  Deleting [ids1] and then [ids2] leaves the same world as deleting
    [ids1 ++ ids2] at once; in particular deleting the same ids twice is
    deleting them once. *)
Theorem deleteCommands_twice (ids1 ids2 : list string) (w : World) :
  deleteCommands ids2 (deleteCommands ids1 w).2 = deleteCommands (ids1 ++ ids2) w ∧
  deleteCommands ids1 (deleteCommands ids1 w).2 = deleteCommands ids1 w.
Proof.
  assert (∀ a b r, deleteCommands_updater b (deleteCommands_updater a r)
                   = deleteCommands_updater (a ++ b) r) as Hcomp.
  { intros a b r. unfold deleteCommands_updater. cbn [commands]. f_equal.
    rewrite list_filter_filter. apply list_filter_iff. intros c.
    rewrite not_elem_of_app. tauto. }
  assert (∀ a r, deleteCommands_updater a (deleteCommands_updater a r)
                 = deleteCommands_updater a r) as Hidem.
  { intros a r. rewrite Hcomp. unfold deleteCommands_updater. f_equal.
    apply list_filter_iff. intros c. rewrite not_elem_of_app. tauto. }
  unfold deleteCommands, setRepl. cbn [snd repl errorMessage
    isMockGenerationEnabled uuid_calls api_state api_trace].
  by rewrite Hcomp, Hidem.
Qed.

End Delete.

(** ** Reorder *)

Lemma namedCommands_elem (ids : list string) (q : list ReplCommand) x :
  NoDup (map id q) → x ∈ namedCommands ids q ↔ x ∈ q ∧ id x ∈ ids.
Proof.
  intros Hnd. unfold namedCommands. rewrite list_elem_of_omap. split.
  - intros (i & Hi & Hx). apply commandNamed_Some in Hx as [Hx <-]. done.
  - intros [Hx Hi]. exists (id x). split; [done|]. by apply commandNamed_elem.
Qed.

Lemma namedCommands_ids_sublist (ids : list string) (q : list ReplCommand) :
  sublist (map id (namedCommands ids q)) ids.
Proof.
  unfold namedCommands. induction ids as [|i ids IH]; [done|]. csimpl.
  destruct (commandNamed i q) as [c|] eqn:E.
  - apply commandNamed_Some in E as [_ <-]. cbn [map]. by constructor.
  - by constructor.
Qed.

Lemma reorder_updater_permutation (ids : list string) (r : Repl) :
  NoDup (map id (commands r)) →
  NoDup ids →
  commands (reorderCommands_updater ids r) ≡ₚ commands r ∧
  NoDup (map id (commands (reorderCommands_updater ids r))).
Proof.
  intros Hq Hids. cbn [reorderCommands_updater commands].
  cbv zeta. rewrite (omap_commandMap _ _ Hq).
  set (q := commands r) in *.
  assert (NoDup (map id (namedCommands ids q ++ filter (λ c, id c ∉ ids) q)))
    as Hnd.
  { rewrite map_app. apply NoDup_app. split; [|split].
    - eapply sublist_NoDup; [exact Hids|apply namedCommands_ids_sublist].
    - intros i Hi Hi'.
      apply list_elem_of_In, in_map_iff in Hi as (x & <- & Hx).
      apply list_elem_of_In, (namedCommands_elem _ _ _ Hq) in Hx as [_ Hx].
      apply list_elem_of_In, in_map_iff in Hi' as (y & Hy & Hy').
      apply list_elem_of_In, list_elem_of_filter in Hy' as [Hy' _].
      apply Hy'. by rewrite Hy.
    - by apply filter_ids_NoDup. }
  split; [|done].
  apply NoDup_Permutation.
  - by apply NoDup_fmap_1 in Hnd.
  - by apply NoDup_fmap_1 in Hq.
  - intros x. rewrite elem_of_app, (namedCommands_elem _ _ _ Hq),
      list_elem_of_filter.
    destruct (decide (id x ∈ ids)); tauto.
Qed.

Section ReorderMore.
Context {client : ExecutionClient} {libs : Libraries}.

(** X3.  When neither the queue nor [ids] repeats an id, [reorderCommands]
    only permutes the queue: no command is lost, added or changed, and the
    ids stay distinct. *)
Theorem reorderCommands_permutation (ids : list string) (w : World) :
  NoDup (map id (commands (repl w))) →
  NoDup ids →
  ∃ w', reorderCommands ids w = (Resolved tt, w') ∧
    commands (repl w') ≡ₚ commands (repl w) ∧
    NoDup (map id (commands (repl w'))).
Proof.
  intros Hq Hids. eexists. split; [reflexivity|].
  cbn [reorderCommands setRepl snd repl].
  by apply reorder_updater_permutation.
Qed.

(** X4.  [reorderCommands] does not remove repetitions from [ids]: when an
    id that names a command occurs twice in [ids], the command is in the new
    queue twice and its ids are no longer distinct. *)
Theorem reorderCommands_repeated_id
  (l1 l2 l3 : list string) (c : ReplCommand) (w : World) :
  NoDup (map id (commands (repl w))) →
  c ∈ commands (repl w) →
  ∃ w', reorderCommands (l1 ++ id c :: l2 ++ id c :: l3) w = (Resolved tt, w') ∧
    (∃ k1 k2 k3, commands (repl w') = k1 ++ c :: k2 ++ c :: k3) ∧
    ¬ NoDup (map id (commands (repl w'))).
Proof.
  intros Hq Hc. eexists. split; [reflexivity|].
  cbn [reorderCommands setRepl snd repl reorderCommands_updater commands].
  cbv zeta. rewrite (omap_commandMap _ _ Hq).
  set (q := commands (repl w)) in *.
  assert (∃ k1 k2 k3,
            namedCommands (l1 ++ id c :: l2 ++ id c :: l3) q ++
            filter (λ c0, id c0 ∉ l1 ++ id c :: l2 ++ id c :: l3) q
            = k1 ++ c :: k2 ++ c :: k3) as (k1 & k2 & k3 & E).
  { unfold namedCommands. rewrite omap_app. csimpl.
    rewrite (commandNamed_elem q c Hq Hc). rewrite omap_app. csimpl.
    rewrite (commandNamed_elem q c Hq Hc).
    exists (omap (λ i, commandNamed i q) l1), (omap (λ i, commandNamed i q) l2),
      (omap (λ i, commandNamed i q) l3 ++
       filter (λ c0, id c0 ∉ l1 ++ id c :: l2 ++ id c :: l3) q).
    rewrite <- !app_assoc. cbn [app]. rewrite <- !app_assoc. done. }
  split; [by exists k1, k2, k3|].
  rewrite E, map_app. cbn [map]. rewrite map_app. cbn [map].
  intros Hnd. apply NoDup_app in Hnd as (_ & _ & Hnd).
  apply NoDup_cons in Hnd as [Hin _]. apply Hin.
  apply elem_of_app. right. left.
Qed.

End ReorderMore.

(** ** Splicing mocks into the queue *)

Lemma splice_insert_Permutation {A} (k : Z) (x : A) (l : list A) :
  splice_insert k x l ≡ₚ x :: l.
Proof.
  unfold splice_insert. cbv zeta.
  match goal with |- context [take ?n l] => generalize n; intros n' end.
  symmetry. etransitivity; [|apply Permutation_middle]. by rewrite take_drop.
Qed.

Lemma splice_insert_sublist {A} (k : Z) (x : A) (l : list A) :
  sublist l (splice_insert k x l).
Proof.
  unfold splice_insert. cbv zeta.
  match goal with |- context [take ?n l] => generalize n; intros n' end.
  rewrite <- (take_drop n' l) at 1.
  apply sublist_app; [done|]. by apply sublist_cons.
Qed.

Lemma spliceLoop_Permutation (k : Z) (mocks q : list ReplCommand) :
  spliceLoop k mocks q ≡ₚ mocks ++ q.
Proof.
  revert k q. induction mocks as [|m mocks IH]; intros k q; [done|].
  cbn [spliceLoop]. rewrite IH, splice_insert_Permutation.
  symmetry. apply Permutation_middle.
Qed.

Lemma spliceLoop_sublist (k : Z) (mocks q : list ReplCommand) :
  sublist q (spliceLoop k mocks q).
Proof.
  revert k q. induction mocks as [|m mocks IH]; intros k q; [done|].
  cbn [spliceLoop]. etransitivity; [apply splice_insert_sublist|apply IH].
Qed.

(** X5.  Wherever the command is (or is not) in the queue, the updater of
    [runCommand] only inserts: the old queue is a subsequence of the new
    one, the new one holds the old commands and the mocks and nothing else,
    each as often as before.  When no entry has the id of the command
    ([findIndex] gives [-1]), the first mock lands in front of the last
    entry and the others, in their order, at the head of the queue. *)
Theorem insertMocks_updater_spec
  (command : ReplCommand) (mocks : list ReplCommand) (r : Repl) :
  let q := commands r in
  let q' := commands (insertMocks_updater command mocks r) in
  sublist q q' ∧
  q' ≡ₚ mocks ++ q ∧
  length q' = length mocks + length q ∧
  (id command ∉ map id q →
   match mocks with
   | [] => q' = q
   | m :: rest => q' = rest ++ take (length q - 1) q ++ m :: drop (length q - 1) q
   end).
Proof.
  cbv zeta. cbn [insertMocks_updater commands]. cbv zeta.
  split; [apply spliceLoop_sublist|].
  split; [apply spliceLoop_Permutation|].
  split; [by rewrite spliceLoop_Permutation, length_app|].
  intros Habs. unfold findIndex. rewrite findIndex_from_absent by done.
  destruct mocks as [|m rest]; [done|]. cbn [spliceLoop].
  assert (∀ l, spliceLoop 0 rest l = rest ++ l) as Hfront
    by (intros l; apply (spliceLoop_at rest [] l)).
  change (-1 + 1)%Z with 0%Z. rewrite Hfront. f_equal.
  unfold splice_insert. cbv zeta.
  replace (Z.to_nat _) with (length (commands r) - 1); [done|].
  destruct (Z.ltb_spec (-1) 0); lia.
Qed.

(** ** The ways one run can end *)

Section RunOneMore.
Context {client : ExecutionClient} {libs : Libraries}.

Lemma map_mark_running_then (i : string) (st : ReplCommandStatus)
  (q : list ReplCommand) :
  map (markIfNamed i st) (map (markIfNamed i running) q) = map (markIfNamed i st) q.
Proof. rewrite map_map. apply map_ext. intros x. apply markIfNamed_twice. Qed.

(** What [runCommand] does with mock generation off. *)
Lemma runCommand_nomock_effect (c : ReplCommand) (w w' : World) (ok : bool) :
  isMockGenerationEnabled w = false →
  runCommand c w = (Resolved ok, w') →
  commands (repl w')
  = map (markIfNamed (id c) (if ok then success else error)) (commands (repl w)) ∧
  uuid_calls w' = uuid_calls w ∧
  errorMessage w' = errorMessage w ∧
  (api_trace w' = api_trace w ++ [CallRunCommand (yaml c) false; CallFlushMock] ∨
   ok = false ∧ api_trace w' = api_trace w ++ [CallRunCommand (yaml c) false]).
Proof.
  intros Hmock Hrun. pose proof (runCommand_cases c w) as H. cbv zeta in H.
  rewrite Hmock in H.
  destruct (call_runCommand _ _ _) as [[[]|e] w1] eqn:Ecall.
  - apply remote_trace in Ecall as (Ht & Hr & _ & He & _ & Hu).
    destruct (flushMocks w1) as [[[]|e] w2] eqn:Eflush;
      apply remote_trace in Eflush as (Ht2 & Hr2 & _ & He2 & _ & Hu2);
      rewrite Hrun in H; injection H as -> ->;
      cbn [setCommandStatus setRepl snd repl api_trace uuid_calls errorMessage];
      rewrite setStatus_commands, Hr2, Hr, Hu2, Hu, He2, He, Ht2, Ht, <- app_assoc;
      cbn [setCommandStatus setRepl snd repl api_trace uuid_calls errorMessage];
      rewrite setStatus_commands, map_mark_running_then; repeat split; auto.
  - apply remote_trace in Ecall as (Ht & Hr & _ & He & _ & Hu).
    rewrite Hrun in H. injection H as -> ->.
    cbn [setCommandStatus setRepl snd repl api_trace uuid_calls errorMessage].
    rewrite setStatus_commands, Hr, Hu, He, Ht.
    cbn [setCommandStatus setRepl snd repl api_trace uuid_calls errorMessage].
    rewrite setStatus_commands, map_mark_running_then. repeat split; auto.
Qed.





End RunOneMore.

(** ** Whole runs *)

Lemma map_markIfNamed_yamls i st (q : list ReplCommand) :
  map yaml (map (markIfNamed i st) q) = map yaml q.
Proof. rewrite map_map. apply map_ext. intros c. apply markIfNamed_yaml. Qed.

Section RunsMore.
Context {client : ExecutionClient} {libs : Libraries}.

Lemma cancelAll_yamls rest (q : list ReplCommand) :
  map yaml (cancelAll rest q) = map yaml q.
Proof.
  revert q. induction rest as [|c rest IH]; intros q; [done|].
  by rewrite cancelAll_cons, IH, map_markIfNamed_yamls.
Qed.

Lemma forEach_pending_yamls (cmds : list ReplCommand) (w : World) :
  map yaml (commands (repl (forEach (λ c, setCommandStatus (id c) pending) cmds w).2))
  = map yaml (commands (repl w)).
Proof.
  revert w. induction cmds as [|c cmds IH]; intros w; [done|].
  cbn [forEach]. erewrite bind_resolved; [|reflexivity].
  rewrite IH. apply setStatus_yamls.
Qed.

Lemma runLoop_without_mocks (cmds : list ReplCommand) (abort0 : bool) (w : World) :
  isMockGenerationEnabled w = false →
  ∃ abort w', runLoop abort0 cmds w = (Resolved abort, w') ∧
    map id (commands (repl w')) = map id (commands (repl w)) ∧
    map yaml (commands (repl w')) = map yaml (commands (repl w)) ∧
    uuid_calls w' = uuid_calls w ∧
    errorMessage w' = errorMessage w ∧
    (abort = false → api_trace w' = api_trace w ++ flushedRuns cmds).
Proof.
  revert abort0 w. induction cmds as [|c cmds IH]; intros abort0 w Hmock.
  - exists abort0, w. cbn [flushedRuns flat_map]. rewrite app_nil_r. by repeat split.
  - destruct abort0.
    + destruct (runLoop_aborted (c :: cmds) w) as (w' & E & (He&_&Hu&_&_) & Hc).
      exists true, w'. rewrite Hc, cancelAll_ids, cancelAll_yamls. by repeat split.
    + destruct (runCommand_resolves c w) as (ok & w1 & E1).
      destruct (runCommand_nomock_effect c w w1 ok Hmock E1) as (Hq & Hu & He & Ht).
      destruct (runCommand_effect c w w1 ok E1) as (_ & _ & _ & _ & Hm).
      rewrite Hmock in Hm.
      destruct (IH (if ok then false else true) w1 Hm)
        as (abort & w' & E & Hi' & Hy' & Hu' & He' & Ht').
      exists abort, w'. split.
      { cbn [runLoop]. by rewrite (bind_resolved _ _ _ _ _ E1). }
      rewrite Hi', Hy', Hu', He', Hq, map_markIfNamed_ids, map_markIfNamed_yamls.
      repeat split; try done. intros Ha. rewrite (Ht' Ha).
      destruct ok.
      * destruct Ht as [->|[? _]]; [|done].
        cbn [flushedRuns flat_map]. by rewrite <- app_assoc.
      * destruct (runLoop_aborted cmds w1) as (w'' & E'' & _).
        rewrite E'' in E. injection E as <- _. done.
Qed.

(** X9.  With mock generation off, a run never adds, removes, reorders or
    rewrites commands (ids and payloads of the queue stay as they are),
    draws no id and sets no error message; when it returns [true], the
    calls made are, for every command of the run-set in order, its run
    followed by one [flushMock]. *)
Theorem runCommands_without_mocks (cmds : list ReplCommand) (w : World) :
  isMockGenerationEnabled w = false →
  ∃ ok w', runCommands cmds w = (Resolved ok, w') ∧
    map id (commands (repl w')) = map id (commands (repl w)) ∧
    map yaml (commands (repl w')) = map yaml (commands (repl w)) ∧
    uuid_calls w' = uuid_calls w ∧
    errorMessage w' = errorMessage w ∧
    (ok = true → api_trace w' = api_trace w ++ flushedRuns cmds).
Proof.
  intros Hmock.
  destruct (forEach_pending cmds w) as (w0 & E0 & (He0&Hm0&Hu0&_&Ht0) & Hi0).
  pose proof (forEach_pending_yamls cmds w) as Hy0. rewrite E0 in Hy0.
  cbn [snd] in Hy0.
  destruct (runLoop_without_mocks cmds false w0) as (abort & w' & E & Hi & Hy & Hu & He & Ht).
  { by rewrite Hm0. }
  exists (negb abort), w'. split.
  { unfold runCommands. rewrite (bind_resolved _ _ _ _ _ E0).
    by rewrite (bind_resolved _ _ _ _ _ E). }
  rewrite Hi, Hy, Hu, He, Hi0, Hy0, Hu0, He0. repeat split; try done.
  intros Ha. destruct abort; [done|]. by rewrite Ht, Ht0.
Qed.

(** X10.  When [runCommands] returns [true] on a run-set without duplicate
    ids, every command of the run-set was executed, in order, and every
    entry of the queue named by the run-set is [success]. *)
Theorem runCommands_true (cmds : list ReplCommand) (w w' : World) :
  NoDup (map id cmds) →
  runCommands cmds w = (Resolved true, w') →
  dispatched (api_trace w') = dispatched (api_trace w) ++ map yaml cmds ∧
  (∀ i, i ∈ map id cmds → allNamed i success (commands (repl w'))) ∧
  map id (commands (repl w)) ⊆ map id (commands (repl w')).
Proof.
  intros Hnd Hrun.
  destruct (forEach_pending cmds w) as (w0 & E0 & (_&_&_&_&Ht0) & Hi0).
  destruct (runLoop_trace cmds false w0) as (abort & w1 & n & E & _).
  unfold runCommands in Hrun. rewrite (bind_resolved _ _ _ _ _ E0) in Hrun.
  rewrite (bind_resolved _ _ _ _ _ E) in Hrun.
  injection Hrun as Ha <-. destruct abort; [done|].
  destruct (runLoop_prefix cmds w0 w1 E) as (_ & Htr & Hids & _ & Hnamed).
  rewrite Htr, Ht0, <- Hi0. split; [done|]. split; [by apply Hnamed|done].
Qed.

(** X11.  [runCommandIds] with ids that name no command of the queue
    returns [true] and leaves the world as it is: nothing is marked, nothing
    is sent to the remote side. *)
Theorem runCommandIds_unknown (ids : list string) (w : World) :
  (∀ i, i ∈ ids → i ∉ map id (commands (repl w))) →
  runCommandIds ids w = (Resolved true, w).
Proof.
  intros Hids. unfold runCommandIds, selectCommands.
  assert (filter (λ command, id command ∈ ids) (commands (repl w)) = []) as ->;
    [|done].
  induction (commands (repl w)) as [|c q IH]; [done|].
  cbn [map] in Hids. rewrite filter_cons_False.
  - apply IH. intros i Hi Hin. apply (Hids i Hi). by right.
  - intros Hin. apply (Hids _ Hin). left.
Qed.

(** ** Submitting text *)

(** X12.  A text that [YAML.parse] rejects makes [runCommandYaml] reject
    with the same error; unlike a failed dry run, this sets no error message
    and leaves the world untouched: no id is drawn and no call is made. *)
Theorem runCommandYaml_malformed (text : string) (e : JsError) (w : World) :
  YAML_parse text = Rejected e →
  runCommandYaml text w = (Rejected e, w).
Proof.
  intros Hparse. unfold runCommandYaml.
  apply bind_rejected. unfold parseCommands. apply bind_rejected.
  unfold lift. by rewrite Hparse.
Qed.

Lemma validateAll_accepted (cmds : list ReplCommand) (w1 w2 : World) :
  forEach (λ c, call_runCommand (yaml c) true) cmds w1 = (Resolved tt, w2) →
  validateAll cmds w1 = (Resolved true, w2) ∧
  repl w2 = repl w1 ∧
  errorMessage w2 = errorMessage w1 ∧
  api_trace w2 = api_trace w1 ++ map (λ c, CallRunCommand (yaml c) true) cmds.
Proof.
  revert w1. induction cmds as [|c cmds IH]; intros w1 Hall.
  - injection Hall as <-. cbn [map]. by rewrite app_nil_r.
  - cbn [forEach] in Hall. unfold bind at 1 in Hall.
    destruct (call_runCommand (yaml c) true w1) as [[[]|e'] wm] eqn:Ec; [|done].
    destruct (IH wm Hall) as (E & Hr & He & Ht). split.
    { cbn [validateAll]. unfold bind at 1, try_catch, bind at 1.
      rewrite Ec. exact E. }
    apply remote_trace in Ec as (Ht' & Hr' & _ & He' & _).
    rewrite Hr, He, Ht, Hr', He', Ht'. cbn [map]. by rewrite <- app_assoc.
Qed.

(** X13.  When every dry run is accepted, [runCommandYaml] first makes the
    dry runs of all candidates, in document order, then appends all
    candidates at the end of the queue, in that order, and only then runs
    them: its result is that of [runCommands] on the candidates in the
    world with the extended queue. *)
Theorem runCommandYaml_accepted
  (text : string) (cmds : list ReplCommand) (w w1 w2 : World) :
  parseCommands text w = (Resolved cmds, w1) →
  forEach (λ c, call_runCommand (yaml c) true) cmds w1 = (Resolved tt, w2) →
  let w3 := (setRepl (appendCommands_updater cmds) w2).2 in
  runCommandYaml text w = runCommands cmds w3 ∧
  commands (repl w3) = commands (repl w) ++ cmds ∧
  api_trace w3 = api_trace w ++ map (λ c, CallRunCommand (yaml c) true) cmds ∧
  errorMessage w3 = errorMessage w.
Proof.
  intros Hparse Hall w3.
  destruct (validateAll_accepted cmds w1 w2 Hall) as (E & Hr & He & Ht).
  split.
  { unfold runCommandYaml. rewrite (bind_resolved _ _ _ _ _ Hparse).
    rewrite (bind_resolved _ _ _ _ _ E). reflexivity. }
  apply parseCommands_inv in Hparse as (_ & _ & _ & _ & (_ & Hr1 & He1 & _ & _ & _ & Ht1)).
  subst w3. cbn [setRepl snd repl api_trace errorMessage appendCommands_updater commands].
  by rewrite Hr, Hr1, Ht, Ht1, He, He1.
Qed.

End RunsMore.

(** ** What a run never does *)

Section RunNever.
Context {client : ExecutionClient} {libs : Libraries}.

(** X22.  [runCommand] never rejects: whatever the remote side, the JSON
    and the YAML codecs do, it returns a boolean, every entry named by the
    command ends [success] when it returns [true] and [error] when it
    returns [false], exactly one real run is sent, and no entry of the
    queue is removed or moved (the ids of the old queue are a subsequence of
    those of the new one). *)
Theorem runCommand_never_rejects (c : ReplCommand) (w : World) :
  ∃ ok w', runCommand c w = (Resolved ok, w') ∧
    allNamed (id c) (if ok then success else error) (commands (repl w')) ∧
    dispatched (api_trace w') = dispatched (api_trace w) ++ [yaml c] ∧
    sublist (map id (commands (repl w))) (map id (commands (repl w'))).
Proof.
  destruct (runCommand_resolves c w) as (ok & w' & E).
  destruct (runCommand_effect c w w' ok E) as (mocks & _ & Hq & Ht & _).
  cbv zeta in Hq. exists ok, w'. split; [exact E|].
  split; [rewrite Hq; apply allNamed_mark_same|]. split; [exact Ht|].
  rewrite Hq, map_markIfNamed_ids.
  rewrite <- (map_markIfNamed_ids (id c) running (commands (repl w))).
  apply (fmap_sublist id). apply spliceLoop_sublist.
Qed.

(** X23.  Submitting a text whose root is the empty list is accepted: no
    dry run and no run is made, no id is drawn, the queue keeps its
    commands, and [runCommandYaml] returns [true]. *)
Theorem runCommandYaml_empty_list (text : string) (w : World) :
  YAML_parse text = Resolved (JArr []) →
  ∃ w', runCommandYaml text w = (Resolved true, w') ∧
    commands (repl w') = commands (repl w) ∧
    api_trace w' = api_trace w ∧
    uuid_calls w' = uuid_calls w ∧
    errorMessage w' = errorMessage w.
Proof.
  intros Hparse. eexists. split.
  { unfold runCommandYaml.
    rewrite (bind_resolved _ _ w [] w).
    - reflexivity.
    - unfold parseCommands, bind, lift. by rewrite Hparse. }
  simpl. by rewrite app_nil_r.
Qed.

End RunNever.

(** ** Capture records *)

Section Records.
Context {client : ExecutionClient} {libs : Libraries}.

(** X14.  [mockResult] fails exactly on a [null] or [undefined] record.
    On any other record it builds [{ runScript: { file, env } }] where
    [file] is the file of the record when that is truthy and
    ["script/reproxy.js"] otherwise, and [env] has the three properties
    [mode], [api], [behavior] and no other, read from the env of the record
    ([undefined] where the record has none). *)
Theorem mockResult_spec (item : JsValue) :
  match item with
  | JNull | JUndefined => ∃ e, mockResult item = Rejected e
  | _ =>
      let file := runScriptProp item "file" in
      let env := js_or (runScriptProp item "env") (JObj []) in
      mockResult item
      = Resolved
          (JObj [("runScript",
                  JObj [("file", if truthy file then file
                                 else JStr "script/reproxy.js");
                        ("env", JObj [("mode", getPropOpt env "mode");
                                      ("api", getPropOpt env "api");
                                      ("behavior", getPropOpt env "behavior")])])])
  end.
Proof.
  assert (∀ v k, truthy v = true → getProp v k = Resolved (getPropOpt v k)) as Hget.
  { intros v k Hv. by destruct v. }
  assert (∀ v, truthy (js_or v (JObj [])) = true) as Hor.
  { intros v. unfold js_or. by destruct (truthy v) eqn:E. }
  destruct item; try (by eexists); unfold mockResult, runScriptProp;
    cbn [getProp getPropOpt obind]; rewrite !Hget by apply Hor;
    cbn [obind]; reflexivity.
Qed.

Lemma flatMapM_single (texts : list string) (w : World) :
  Forall (λ t, ∃ p, YAML_parse t = Resolved p ∧ isArray p = false) texts →
  ∃ cmds w', flatMapM parseCommands texts w = (Resolved cmds, w') ∧
    Forall2 (λ t m, ∃ p, YAML_parse t = Resolved p ∧
                         yaml m = YAML_stringify p) texts cmds ∧
    map id cmds = drawnIds (uuid_calls w) (length texts) ∧
    drew (length texts) w w'.
Proof.
  intros Hall. revert w. induction Hall as [|t texts (p & Hp & Harr) _ IH]; intros w.
  - exists [], w. split; [done|]. split; [constructor|]. split; [done|].
    unfold drew. repeat split; try done; cbn [length]; lia.
  - destruct (mapM_newCommand (parsedYamls p) w) as (cs & w1 & E1 & Hy & Hi & _ & Hd).
    assert (parsedYamls p = [YAML_stringify p]) as Hone by by destruct p.
    rewrite Hone in *. cbn [length] in *.
    destruct cs as [|m [|m' cs]]; try done. injection Hy as Hy.
    destruct (IH w1) as (cmds & w' & E & HF & Hi' & Hd').
    exists (m :: cmds), w'. split.
    { cbn [flatMapM]. erewrite bind_resolved; cycle 1.
      { unfold parseCommands. erewrite bind_resolved; [|unfold lift; by rewrite Hp].
        rewrite Hone. exact E1. }
      by rewrite (bind_resolved _ _ _ _ _ E). }
    split; [constructor; [by exists p|done]|].
    pose proof Hd as (Hu & _). split.
    + change (S (length texts)) with (1 + length texts).
      rewrite drawnIds_app, <- Hi. cbn [map app]. by rewrite Hi', Hu.
    + change (S (length texts)) with (1 + length texts). by eapply drew_trans.
Qed.

(** X15.  When the capture response is an array of records each of which
    [mockResult] accepts and whose YAML text parses back to a value that is
    not an array, [runGetMocks] returns exactly one command per record, in
    the order of the response, each [success], with the payload of its
    record and an id of its own drawn for it. *)
Theorem runGetMocks_one_per_record
  (w w1 : World) (rawResult : string) (records : list JsValue) :
  call_getMock w = (Resolved rawResult, w1) →
  JSON_parse rawResult = Resolved (JArr records) →
  Forall (λ item, ∃ r p, mockResult item = Resolved r ∧
                         YAML_parse (YAML_stringify r) = Resolved p ∧
                         isArray p = false) records →
  ∃ mocks w2, runGetMocks w = (Resolved mocks, w2) ∧
    length mocks = length records ∧
    Forall (λ m, status m = success) mocks ∧
    map id mocks = drawnIds (uuid_calls w) (length records) ∧
    uuid_calls w2 = uuid_calls w + length records ∧
    Forall2 (λ item m, ∃ r p, mockResult item = Resolved r ∧
                              YAML_parse (YAML_stringify r) = Resolved p ∧
                              yaml m = YAML_stringify p) records mocks.
Proof.
  intros Eget Eparse Hall.
  pose proof (runGetMocks_cases w) as Hm. rewrite Eget, Eparse in Hm.
  assert (∃ texts, omapM mockYaml records = Resolved texts ∧
            Forall2 (λ item t, ∃ r, mockResult item = Resolved r ∧
                                    t = YAML_stringify r) records texts ∧
            Forall (λ t, ∃ p, YAML_parse t = Resolved p ∧ isArray p = false) texts)
    as (texts & Etexts & HF1 & Htexts).
  { clear -Hall. induction Hall as [|item records (r & p & Hr & Hp & Harr) _ IH].
    - exists []. by repeat constructor.
    - destruct IH as (texts & E & HF & Ht). exists (YAML_stringify r :: texts).
      split; [|split].
      + cbn [omapM]. unfold mockYaml at 1. rewrite Hr. cbn [obind]. by rewrite E.
      + constructor; [by exists r|done].
      + constructor; [by exists p|done]. }
  destruct (flatMapM_single texts w1 Htexts) as (cmds & w2 & E & HF2 & Hi & Hd).
  pose proof (Forall2_length _ _ _ HF1) as Hlen1.
  pose proof (Forall2_length _ _ _ HF2) as Hlen2.
  apply remote_trace in Eget as (_ & _ & _ & _ & _ & Hu).
  exists (map (withStatus success) cmds), w2. split.
  { rewrite Hm. unfold bind at 1, lift. rewrite Etexts.
    by rewrite (bind_resolved _ _ _ _ _ E). }
  split; [by rewrite length_map, <- Hlen2|].
  split; [clear; induction cmds; cbn [map]; by constructor|].
  split.
  { rewrite Hlen1, <- Hu, <- Hi. clear. induction cmds; cbn [map]; by f_equal. }
  split; [destruct Hd as (-> & _); by rewrite Hu, Hlen1|].
  clear -HF1 HF2. revert cmds HF2.
  induction HF1 as [|item t records texts (r & Hr & ->) _ IH]; intros cmds HF2.
  - inversion HF2. constructor.
  - inversion HF2 as [|? m ? cmds' (p & Hp & Hy) HF2']; subst.
    cbn [map]. constructor; [|by apply IH]. by exists r, p.
Qed.

End Records.

(** ** The reviver of [restoreRepl] *)

Lemma internalize_plain :
  ∀ (v : JsValue) (key : string),
    plain v = true →
    key ≠ "command" ∨ truthy v = true →
    internalize restoreReviver key v = v.
Proof.
  assert (∀ key v, key ≠ "command" ∨ truthy v = true → restoreReviver key v = v)
    as Hrev.
  { intros key v [Hk|Hv]; [|by apply restoreReviver_truthy].
    unfold restoreReviver. by destruct (String.eqb_spec key "command"). }
  fix IH 1. intros v key Hp Hk. destruct v as [| | | | |elems|props];
    try (by apply Hrev).
  - cbn [internalize]. rewrite Hrev by done. f_equal.
    clear Hk. cbn [plain] in Hp. generalize 0. revert Hp.
    induction elems as [|e elems IHl]; intros Hp n; [done|].
    cbn [forallb] in Hp. apply andb_prop in Hp as [He Hp].
    rewrite (IHl Hp). f_equal. apply IH; [done|].
    left. unfold indexKey. clear. intros H.
    pose proof (f_equal NilEmpty.uint_of_string H) as H'.
    rewrite NilEmpty.usu in H'. discriminate H'.
  - cbn [internalize]. rewrite Hrev by done. f_equal.
    clear Hk. cbn [plain] in Hp. revert Hp.
    induction props as [|[k e] props IHl]; intros Hp; [done|].
    cbn [forallb] in Hp. apply andb_prop in Hp as [He Hp].
    apply andb_prop in He as [He Hke].
    rewrite (IHl Hp). rewrite (IH e k He).
    + by destruct e.
    + apply orb_prop in Hke as [Hke|Hke]; [left|by right].
      apply negb_true_iff in Hke. by apply String.eqb_neq.
Qed.

Lemma hasNoProp_lookup (k : string) (v : JsValue) :
  hasNoProp k v → getPropOpt v k = JUndefined.
Proof.
  destruct v as [| | | | | |props]; try done. cbn [hasNoProp getPropOpt].
  induction props as [|[k' e] props IH]; intros Hk; [done|].
  cbn [map fst] in Hk. apply not_elem_of_cons in Hk as [Hne Hk].
  cbn [lookupProp]. destruct (String.eqb_spec k k'); [done|by apply IH].
Qed.

(** The reviver walk never adds a property to an entry. *)
Lemma internalize_hasNoProp (key k : string) (v : JsValue) :
  hasNoProp k v → hasNoProp k (internalize restoreReviver key v).
Proof.
  destruct v as [| |b|n|s|elems|props]; intros Hk;
    try (cbn [internalize]; unfold restoreReviver;
         destruct (String.eqb key "command" && _); exact I).
  cbn [internalize]. rewrite restoreReviver_truthy by done.
  cbn [hasNoProp] in *.
  induction props as [|[k' e] props IH]; [done|].
  cbn [map fst] in Hk. apply not_elem_of_cons in Hk as [Hne Hk].
  destruct (internalize restoreReviver k' e); try (by apply IH);
    cbn [map fst]; apply not_elem_of_cons; split; (done || by apply IH).
Qed.

Lemma internalize_queue (entries : list JsValue) :
  ∃ entries',
    internalize restoreReviver "" (JObj [("commands", JArr entries)])
    = JObj [("commands", JArr entries')] ∧
    Forall2 (λ e e', ∃ key, e' = internalize restoreReviver key e)
      entries entries'.
Proof.
  cbn [internalize].
  rewrite (restoreReviver_truthy "commands" (JArr _)) by done.
  rewrite restoreReviver_truthy by done.
  eexists. split; [reflexivity|].
  generalize 0. induction entries as [|e entries IH]; intros n; [constructor|].
  constructor; [by eexists|apply IH].
Qed.

Section ReviverMore.
Context {libs : Libraries}.

(** C5 (as the code has it).  When the stored text decodes to a queue
    [{ commands: entries }], [restoreRepl] succeeds and returns a queue with
    one entry for each stored entry, in order; an entry stored without a
    [yaml] property is restored without one, so its payload is still absent
    and not an empty payload; and when no stored entry holds a falsy
    property named [command] (the only thing the reviver rewrites), the
    entries are restored exactly as stored.  With no stored value, or the
    empty text, the empty queue is restored. *)
Theorem restoreRepl_payload_stays_missing (text : string) (entries : list JsValue) :
  text ≠ "" →
  JSON_parse text = Resolved (JObj [("commands", JArr entries)]) →
  (∃ entries',
     restoreRepl (Some text) = Resolved (JObj [("commands", JArr entries')]) ∧
     Forall2 (λ e e', hasNoProp "yaml" e →
                      getPropOpt e' "yaml" = JUndefined ∧ ¬ emptyPayload e')
       entries entries' ∧
     (forallb plain entries = true → entries' = entries)) ∧
  restoreRepl None = Resolved (replToJs initialState) ∧
  restoreRepl (Some "") = Resolved (replToJs initialState).
Proof.
  intros Hne Hparse. split; [|by split].
  destruct (internalize_queue entries) as (entries' & E & HF).
  exists entries'. split; [|split].
  - unfold restoreRepl. destruct (String.eqb_spec text ""); [done|].
    rewrite Hparse. cbn [obind]. by rewrite E.
  - clear E Hparse.
    induction HF as [|e e' entries entries' (key & ->) _ IH]; [constructor|].
    constructor; [|done].
    intros Hmissing.
    pose proof (hasNoProp_lookup _ _
                  (internalize_hasNoProp key "yaml" e Hmissing)) as Hy.
    split; [exact Hy|]. unfold emptyPayload. rewrite Hy. by intros [|].
  - intros Hplain.
    assert (plain (JObj [("commands", JArr entries)]) = true) as Hroot.
    { cbn [plain forallb]. rewrite Hplain. reflexivity. }
    rewrite (internalize_plain _ "" Hroot) in E by by left.
    by injection E.
Qed.

(** X16.  On every stored text that decodes to a value without
    [undefined] and without a falsy property named [command], [restoreRepl]
    returns the decoded value as it is; and when [JSON.parse] rejects the
    text, so does [restoreRepl], with the same error. *)
Theorem restoreRepl_plain (text : string) :
  text ≠ "" →
  (∀ v, JSON_parse text = Resolved v → plain v = true →
        restoreRepl (Some text) = Resolved v) ∧
  (∀ e, JSON_parse text = Rejected e → restoreRepl (Some text) = Rejected e).
Proof.
  intros Hne. unfold restoreRepl.
  destruct (String.eqb_spec text ""); [done|]. split.
  - intros v -> Hp. cbn [obind]. rewrite internalize_plain; [done|done|by left].
  - by intros e ->.
Qed.

(** X17.  A stored object whose first property is named [command] and has
    a falsy value ([null], [false], [0], the empty string) is restored with
    that property replaced by the empty array, the other properties being
    left as they are when they are plain. *)
Theorem restoreRepl_falsy_command (text : string) (v : JsValue)
  (rest : list (string * JsValue)) :
  text ≠ "" →
  JSON_parse text = Resolved (JObj (("command", v) :: rest)) →
  v ≠ JUndefined →
  truthy v = false →
  plain (JObj rest) = true →
  restoreRepl (Some text) = Resolved (JObj (("command", JArr []) :: rest)).
Proof.
  intros Hne Hparse Hu Hv Hrest. unfold restoreRepl.
  destruct (String.eqb_spec text ""); [done|]. rewrite Hparse. cbn [obind].
  pose proof (internalize_plain (JObj rest) "" Hrest (or_intror eq_refl)) as Hr.
  cbn [internalize] in Hr |- *.
  rewrite restoreReviver_truthy in Hr |- * by done.
  injection Hr as Hr. rewrite Hr.
  assert (internalize restoreReviver "command" v = JArr []) as ->; [|done].
  destruct v as [| | | | |elems|props]; try done; cbn [internalize];
    unfold restoreReviver; cbn [String.eqb Ascii.eqb Bool.eqb andb]; by rewrite Hv.
Qed.

End ReviverMore.

(** ** Distinct ids *)

Section Keys.
Context {client : ExecutionClient} {libs : Libraries}.
Hypothesis uuid_inj : ∀ a b, uuidv4 a = uuidv4 b → a = b.

Lemma drawsOnly_preorder : PreOrder (drawsOnly (client:=client)).
Proof.
  split; [by intros w|].
  intros w1 w2 w3 [? ?] [? ?]. unfold drawsOnly. split; [congruence|lia].
Qed.

Lemma draws_remote {A} call (f : ApiState → Outcome A * ApiState) :
  keeps drawsOnly (remote call f).
Proof.
  intros w. unfold remote. destruct (f (api_state w)) as [r s]. by split.
Qed.

Lemma draws_parseCommands text : keeps drawsOnly (parseCommands text).
Proof.
  apply keeps_bind; [apply drawsOnly_preorder|apply keeps_lift, drawsOnly_preorder|].
  intros parsed. apply keeps_mapM; [apply drawsOnly_preorder|intros y].
  apply keeps_bind; [apply drawsOnly_preorder| |intros i].
  - intros w. split; [done|]. simpl. lia.
  - apply keeps_ret, drawsOnly_preorder.
Qed.

Lemma draws_runGetMocks : keeps drawsOnly runGetMocks.
Proof.
  apply keeps_bind; [apply drawsOnly_preorder|apply draws_remote|intros raw].
  apply keeps_bind; [apply drawsOnly_preorder| |intros [items|]].
  - apply keeps_try_catch; [apply drawsOnly_preorder| |].
    + apply keeps_bind; [apply drawsOnly_preorder| |intros items].
      * apply keeps_bind; [apply drawsOnly_preorder| |intros v].
        { apply keeps_lift, drawsOnly_preorder. }
        destruct v; try apply keeps_throw, drawsOnly_preorder.
        apply keeps_ret, drawsOnly_preorder.
      * apply keeps_ret, drawsOnly_preorder.
    + intros _. apply keeps_bind; [apply drawsOnly_preorder| |intros _].
      * by intros w.
      * apply keeps_ret, drawsOnly_preorder.
  - apply keeps_bind; [apply drawsOnly_preorder| |intros yamls].
    { apply keeps_lift, drawsOnly_preorder. }
    apply keeps_bind; [apply drawsOnly_preorder| |intros cs].
    + apply keeps_flatMapM; [apply drawsOnly_preorder|apply draws_parseCommands].
    + apply keeps_ret, drawsOnly_preorder.
  - apply keeps_ret, drawsOnly_preorder.
Qed.

Lemma draws_validateAll cmds : keeps drawsOnly (validateAll cmds).
Proof.
  induction cmds as [|c cmds IH]; cbn [validateAll];
    [apply keeps_ret, drawsOnly_preorder|].
  apply keeps_bind; [apply drawsOnly_preorder| |intros [|]].
  - apply keeps_try_catch; [apply drawsOnly_preorder| |intros e].
    + apply keeps_bind; [apply drawsOnly_preorder|apply draws_remote|intros _].
      apply keeps_ret, drawsOnly_preorder.
    + apply keeps_bind; [apply drawsOnly_preorder| |intros _].
      * by intros w.
      * apply keeps_ret, drawsOnly_preorder.
  - apply IH.
  - apply keeps_ret, drawsOnly_preorder.
Qed.

Lemma wellKeyed_draws (w w' : World) : drawsOnly w w' → wellKeyed w → wellKeyed w'.
Proof.
  intros [Hr Hu] [Hnd Hdrawn]. unfold wellKeyed. rewrite Hr. split; [done|].
  intros i Hi. destruct (Hdrawn i Hi) as (j & Hj & ->). exists j. split; [lia|done].
Qed.

Lemma wellKeyed_setStatus i st (w : World) :
  wellKeyed w → wellKeyed (setCommandStatus i st w).2.
Proof.
  intros [Hnd Hdrawn]. unfold wellKeyed.
  cbn [setCommandStatus setRepl snd repl uuid_calls].
  by rewrite setStatus_ids.
Qed.

(** Adding commands whose ids are the next draws keeps the queue well
    keyed, wherever they are put. *)
Lemma wellKeyed_add (w w' : World) (news : list ReplCommand) (n : nat) :
  wellKeyed w →
  map id news = drawnIds (uuid_calls w) n →
  (uuid_calls w + n ≤ uuid_calls w')%nat →
  commands (repl w') ≡ₚ news ++ commands (repl w) →
  wellKeyed w'.
Proof.
  intros [Hnd Hdrawn] Hnews Hu Hperm. unfold wellKeyed.
  assert (map id (commands (repl w')) ≡ₚ map id news ++ map id (commands (repl w)))
    as Hids.
  { rewrite <- map_app. change (id <$> commands (repl w') ≡ₚ
                                  id <$> (news ++ commands (repl w))).
    by rewrite Hperm. }
  split.
  - rewrite Hids, Hnews. apply NoDup_app. split; [by apply drawnIds_NoDup|].
    split; [|done]. intros i Hi Hq.
    apply drawnIds_elem in Hi as (j & Hj & ->).
    destruct (Hdrawn _ Hq) as (j' & Hj' & E). apply uuid_inj in E. lia.
  - intros i Hi. rewrite Hids, Hnews in Hi. apply elem_of_app in Hi as [Hi|Hi].
    + apply drawnIds_elem in Hi as (j & Hj & ->). exists j. split; [lia|done].
    + destruct (Hdrawn _ Hi) as (j & Hj & ->). exists j. split; [lia|done].
Qed.

Lemma runGetMocks_ids (w w2 : World) mocks :
  runGetMocks w = (Resolved mocks, w2) →
  map id mocks = drawnIds (uuid_calls w) (length mocks) ∧
  uuid_calls w2 = uuid_calls w + length mocks.
Proof.
  pose proof (runGetMocks_cases w) as H.
  destruct (call_getMock w) as [[raw|e] w1] eqn:Eget; [|by rewrite H].
  apply remote_trace in Eget as (_ & _ & _ & _ & _ & Hu).
  assert (∀ ms w', (Resolved ([] : list ReplCommand),
                    (setErrorMessage (Some "Error parsing API response") w1).2)
                   = (Resolved ms, w') →
                   map id ms = drawnIds (uuid_calls w) (length ms) ∧
                   uuid_calls w' = uuid_calls w + length ms) as Hnone.
  { intros ms w' [= <- <-]. cbn [length setErrorMessage snd uuid_calls].
    split; [done|]. rewrite Hu. lia. }
  destruct (JSON_parse raw) as [[| | | | |records|]|]; rewrite H;
    try apply Hnone.
  intros E. apply bind_inv in E as [(texts & w3 & Htexts & E)|(? & _ & [=])].
  apply bind_inv in E as [(cs & w4 & Hcs & E)|(? & _ & [=])].
  injection E as <- <-. unfold lift in Htexts. injection Htexts as _ <-.
  apply flatMapM_parseCommands in Hcs as (_ & _ & _ & Hi & (Hu' & _)).
  rewrite length_map, <- Hu, Hu'. split; [|done].
  rewrite <- Hi. clear. induction cs as [|c cs IH]; cbn [map]; by f_equal.
Qed.

Lemma wellKeyed_runCommand (c : ReplCommand) (w : World) :
  wellKeyed w → wellKeyed (runCommand c w).2.
Proof.
  intros Hw. pose proof (runCommand_cases c w) as H. cbv zeta in H.
  apply (wellKeyed_setStatus (id c) running) in Hw.
  set (w0 := (setCommandStatus (id c) running w).2) in *.
  pose proof (draws_remote (CallRunCommand (yaml c) false)
                (API_runCommand (yaml c) false) w0) as Hd1.
  fold (call_runCommand (yaml c) false) in Hd1.
  destruct (call_runCommand (yaml c) false w0) as [[[]|e] w1]; cbn [snd] in Hd1.
  - apply (wellKeyed_draws _ _ Hd1) in Hw.
    destruct (isMockGenerationEnabled w).
    + pose proof (draws_runGetMocks w1) as Hd2.
      pose proof (runGetMocks_ids w1) as Hids.
      destruct (runGetMocks w1) as [[mocks|e] w2]; cbn [snd] in Hd2; rewrite H;
        cbn [snd]; apply wellKeyed_setStatus.
      * destruct (Hids w2 mocks eq_refl) as [Hi Hu]. destruct Hd2 as [Hr _].
        eapply (wellKeyed_add w1 _ mocks (length mocks) Hw Hi).
        -- cbn [setRepl snd uuid_calls]. lia.
        -- cbn [setRepl snd repl insertMocks_updater commands]. cbv zeta.
           rewrite Hr. apply spliceLoop_Permutation.
      * by apply (wellKeyed_draws _ _ Hd2).
    + pose proof (draws_remote CallFlushMock API_flushMock w1) as Hd2.
      fold call_flushMock in Hd2. fold flushMocks in Hd2.
      destruct (flushMocks w1) as [[[]|e] w2]; cbn [snd] in Hd2; rewrite H;
        cbn [snd]; apply wellKeyed_setStatus; by apply (wellKeyed_draws _ _ Hd2).
  - rewrite H. cbn [snd]. apply wellKeyed_setStatus.
    by apply (wellKeyed_draws _ _ Hd1).
Qed.

Lemma wellKeyed_runLoop (cmds : list ReplCommand) (abort : bool) (w : World) :
  wellKeyed w → wellKeyed (runLoop abort cmds w).2.
Proof.
  revert abort w. induction cmds as [|c cmds IH]; intros abort w Hw; [done|].
  cbn [runLoop]. destruct abort.
  - erewrite bind_resolved; [|reflexivity]. apply IH.
    by apply wellKeyed_setStatus.
  - destruct (runCommand_resolves c w) as (ok & w1 & E).
    rewrite (bind_resolved _ _ _ _ _ E). apply IH.
    pose proof (wellKeyed_runCommand c w Hw) as H. by rewrite E in H.
Qed.

Lemma wellKeyed_runCommands (cmds : list ReplCommand) (w : World) :
  wellKeyed w → wellKeyed (runCommands cmds w).2.
Proof.
  intros Hw. unfold runCommands.
  destruct (forEach_pending cmds w) as (w0 & E0 & (_&_&Hu0&_&_) & Hi0).
  rewrite (bind_resolved _ _ _ _ _ E0).
  assert (wellKeyed w0) as Hw0.
  { destruct Hw as [Hnd Hdrawn]. unfold wellKeyed. rewrite Hi0, Hu0. by split. }
  pose proof (wellKeyed_runLoop cmds false w0 Hw0) as H.
  destruct (runLoop false cmds w0) as [[abort|e] w1] eqn:E; cbn [snd] in H.
  - by rewrite (bind_resolved _ _ _ _ _ E).
  - by rewrite (bind_rejected _ _ _ _ _ E).
Qed.

(** X18.  With a [uuidv4] that never repeats, submitting text and running
    by ids keep the queue well keyed: if the ids of the queue are distinct
    results of earlier [uuidv4] calls before [runCommandYaml] or
    [runCommandIds], they are so after it, whatever the remote side
    answers; the commands appended by a submission and the mocks inserted
    by a run never reuse an id. *)
Theorem wellKeyed_run (w : World) :
  wellKeyed w →
  (∀ text, wellKeyed (runCommandYaml text w).2) ∧
  (∀ ids, wellKeyed (runCommandIds ids w).2).
Proof.
  intros Hw. split; [|intros ids; by apply wellKeyed_runCommands].
  intros text. unfold runCommandYaml.
  pose proof (draws_parseCommands text w) as Hd1.
  destruct (parseCommands text w) as [[cmds|e] w1] eqn:Eparse; cbn [snd] in Hd1.
  2: { rewrite (bind_rejected _ _ _ _ _ Eparse). by apply (wellKeyed_draws _ _ Hd1). }
  rewrite (bind_resolved _ _ _ _ _ Eparse).
  pose proof (draws_validateAll cmds w1) as Hd2.
  destruct (validateAll cmds w1) as [[[|]|e] w2] eqn:Evalid; cbn [snd] in Hd2.
  - rewrite (bind_resolved _ _ _ _ _ Evalid).
    rewrite (bind_resolved _ _ w2 tt (setRepl (appendCommands_updater cmds) w2).2)
      by reflexivity.
    apply wellKeyed_runCommands.
    apply parseCommands_inv in Eparse as (_ & _ & _ & Hi & (Hu & Hr & _)).
    destruct Hd2 as [Hr2 Hu2].
    apply (wellKeyed_add w _ cmds (length cmds) Hw Hi).
    + cbn [setRepl snd uuid_calls]. lia.
    + cbn [setRepl snd repl appendCommands_updater commands].
      rewrite Hr2, Hr. apply Permutation_app_comm.
  - rewrite (bind_resolved _ _ _ _ _ Evalid). cbn [snd].
    apply (wellKeyed_draws w); [|done].
    exact (@PreOrder_Transitive _ _ drawsOnly_preorder _ _ _ Hd1 Hd2).
  - rewrite (bind_rejected _ _ _ _ _ Evalid). cbn [snd].
    apply (wellKeyed_draws w); [|done].
    exact (@PreOrder_Transitive _ _ drawsOnly_preorder _ _ _ Hd1 Hd2).
Qed.

(** X19.  Deleting keeps the queue well keyed, and so does reordering by
    ids that do not repeat. *)
Theorem wellKeyed_edit (ids : list string) (w : World) :
  wellKeyed w →
  wellKeyed (deleteCommands ids w).2 ∧
  (NoDup ids → wellKeyed (reorderCommands ids w).2).
Proof.
  intros [Hnd Hdrawn]. split.
  - unfold wellKeyed. cbn [deleteCommands setRepl snd repl uuid_calls
      deleteCommands_updater commands].
    split; [by apply filter_ids_NoDup|]. intros i Hi. apply Hdrawn.
    apply list_elem_of_In, in_map_iff in Hi as (x & <- & Hx).
    apply list_elem_of_In, list_elem_of_filter in Hx as [_ Hx].
    apply list_elem_of_In, in_map. by apply list_elem_of_In.
  - intros Hids.
    destruct (reorder_updater_permutation ids (repl w) Hnd Hids) as (Hperm & Hnd').
    unfold wellKeyed. cbn [reorderCommands setRepl snd repl uuid_calls].
    split; [done|]. intros i Hi. apply Hdrawn.
    change (i ∈ id <$> commands (repl w)).
    rewrite <- Hperm. exact Hi.
Qed.

End Keys.

(** ** The toggle control *)

Section ToggleFacts.
Import Toggle.

Lemma known_step (s : State) (e : Event) :
  onChangeGiven (props s) = true →
  passesOnChange e →
  known s →
  known (step s e) ∧ onChangeGiven (props (step s e)) = true.
Proof.
  intros Hgiven He Hs. destruct e as [|p]; cbn [step passesOnChange] in *.
  - unfold handleClick. destruct (disabled (props s)); [done|].
    cbn [props]. split; [|done]. right. cbn [notified isOn].
    rewrite Hgiven. apply last_snoc.
  - unfold render, known. cbn [isOn props notified]. split; [|done].
    destruct (Bool.eqb (checked p) (checked (props s))) eqn:E; [|by left].
    apply Bool.eqb_prop in E. rewrite E. exact Hs.
Qed.

(** X20.  When the parent passes [onChange] on every render, then whatever
    is clicked and however the parent re-renders it, the toggle never shows
    a value the parent does not know: what it shows is the current
    [checked] prop or the value of the last [onChange] call. *)
Theorem toggle_shows_known_value (p : ToggleProps) (events : list Event) :
  onChangeGiven p = true →
  Forall passesOnChange events →
  known (run (mount p) events).
Proof.
  intros Hgiven Hall.
  assert (∀ s, onChangeGiven (props s) = true → known s → known (run s events))
    as Hrun.
  { unfold run. induction Hall as [|e events He _ IH]; intros s Hg Hs; [done|].
    cbn [foldl]. destruct (known_step s e Hg He Hs) as [Hk Hg'].
    by apply IH. }
  apply Hrun; [exact Hgiven|by left].
Qed.

(** X21.  While the toggle is disabled, clicks are ignored: over any
    sequence of clicks and re-renders that keep it disabled, [onChange] is
    never called, and a sequence of clicks alone leaves the state as it
    is. *)
Theorem toggle_disabled_silent (s : State) (events : list Event) :
  disabled (props s) = true →
  Forall staysDisabled events →
  notified (run s events) = notified s ∧
  (Forall (λ e, e = Click) events → run s events = s).
Proof.
  intros Hd Hall. revert s Hd.
  induction Hall as [|e events He _ IH]; intros s Hd; [done|].
  unfold run in *. cbn [foldl].
  destruct e as [|p]; cbn [step staysDisabled] in *.
  - unfold handleClick. rewrite Hd. destruct (IH s Hd) as [Hn Hs].
    split; [done|]. intros Hc. apply Hs. by inversion Hc.
  - destruct (IH (render p s) He) as [Hn _]. split; [by rewrite Hn|].
    intros Hc. by inversion Hc.
Qed.

End ToggleFacts.

(** * The properties on concrete runs *)

Section Runs.
Import Demo.
#[local] Existing Instance demoLibraries.

Local Ltac by_decide := compute_done.

Lemma setCommandStatus_frame_witness :
  ∃ w', setCommandStatus "b" error (world capturing tt [a; b; c] false)
        = (Resolved tt, w') ∧
    map status (commands (repl w')) = [success; error; success].
Proof.
  destruct (setCommandStatus_frame (client:=capturing) "b" error
              (world capturing tt [a; b; c] false))
    as (w' & E & _ & _ & _ & Hl & _).
  exists w'. split; [exact E|].
  injection E as <-. reflexivity.
Defined.

Lemma reorderCommands_spec_witness :
  NoDup (map id [a; b; c]) ∧
  ∃ w', reorderCommands ["b"; "z"; "a"] (world capturing tt [a; b; c] false)
        = (Resolved tt, w') ∧
    commands (repl w') = [b; a; c].
Proof.
  assert (NoDup (map id [a; b; c])) as Hnd by by_decide.
  split; [exact Hnd|].
  destruct (reorderCommands_spec (client:=capturing) ["b"; "z"; "a"]
              (world capturing tt [a; b; c] false) Hnd)
    as (w' & E & Hq & _).
  exists w'. split; [exact E|]. rewrite Hq. reflexivity.
Defined.

Lemma parseCommands_spec_witness :
  YAML_parse "[tapOn: a, tapOn: b]"
  = Resolved (JArr [JStr "tapOn: a"; JStr "tapOn: b"]) ∧
  ∃ cmds w', parseCommands "[tapOn: a, tapOn: b]" (world capturing tt [a] false)
             = (Resolved cmds, w') ∧
    map yaml cmds = ["tapOn: a"; "tapOn: b"] ∧
    Forall (λ c, status c = pending) cmds.
Proof.
  assert (YAML_parse "[tapOn: a, tapOn: b]"
          = Resolved (JArr [JStr "tapOn: a"; JStr "tapOn: b"])) as Hparse
    by reflexivity.
  split; [exact Hparse|].
  destruct (parseCommands_spec (client:=capturing) "[tapOn: a, tapOn: b]"
              (JArr [JStr "tapOn: a"; JStr "tapOn: b"])
              (world capturing tt [a] false) Hparse)
    as (cmds & w' & E & Hy & Hs & _).
  exists cmds, w'. split; [exact E|]. split; [exact Hy|exact Hs].
Defined.


Lemma runCommandYaml_atomic_witness :
  let client := rejecting "tapOn: b" true in
  let w := world client tt [a] false in
  let text := "[tapOn: a, tapOn: b, tapOn: c]" in
  let pre := [cmd "uuid-0" pending "tapOn: a"] in
  let k := cmd "uuid-1" pending "tapOn: b" in
  let post := [cmd "uuid-2" pending "tapOn: c"] in
  let w1 := (parseCommands text w).2 in
  let w2 := (forEach (λ c, call_runCommand (yaml c) true) pre w1).2 in
  let w3 := (call_runCommand (yaml k) true w2).2 in
  parseCommands text w = (Resolved (pre ++ k :: post), w1) ∧
  forEach (λ c, call_runCommand (yaml c) true) pre w1 = (Resolved tt, w2) ∧
  call_runCommand (yaml k) true w2 = (Rejected boom, w3) ∧
  ∃ w', runCommandYaml text w = (Resolved false, w') ∧
    errorMessage w' = Some "boom" ∧
    commands (repl w') = [a] ∧
    api_trace w' = [CallRunCommand "tapOn: a" true; CallRunCommand "tapOn: b" true].
Proof.
  intros client w text pre k post w1 w2 w3.
  assert (parseCommands text w = (Resolved (pre ++ k :: post), w1)) as H1
    by (vm_compute; reflexivity).
  assert (forEach (λ c, call_runCommand (yaml c) true) pre w1 = (Resolved tt, w2))
    as H2 by (vm_compute; reflexivity).
  assert (call_runCommand (yaml k) true w2 = (Rejected boom, w3)) as H3
    by (vm_compute; reflexivity).
  split; [exact H1|]. split; [exact H2|]. split; [exact H3|].
  destruct (runCommandYaml_atomic text w w1 w2 w3 pre post k boom H1 H2 H3)
    as (w' & E & He & Hr & _ & Ht).
  exists w'. split; [exact E|]. split; [exact He|].
  split; [by rewrite Hr|by rewrite Ht].
Defined.

Lemma runCommands_failure_witness :
  let client := rejecting "tapOn: b" false in
  let w := world client tt [a; b; c] true in
  let w0 := (forEach (λ c, setCommandStatus (id c) pending) [a; b; c] w).2 in
  let w1 := (runLoop false [a] w0).2 in
  let w2 := (runCommand b w1).2 in
  NoDup (map id ([a] ++ b :: [c])) ∧
  forEach (λ c, setCommandStatus (id c) pending) ([a] ++ b :: [c]) w
  = (Resolved tt, w0) ∧
  runLoop false [a] w0 = (Resolved false, w1) ∧
  runCommand b w1 = (Resolved false, w2) ∧
  ∃ w', runCommands ([a] ++ b :: [c]) w = (Resolved false, w') ∧
    dispatched (api_trace w') = ["tapOn: a"; "tapOn: b"] ∧
    allNamed "a" success (commands (repl w')) ∧
    allNamed "b" error (commands (repl w')) ∧
    allNamed "c" canceled (commands (repl w')).
Proof.
  intros client w w0 w1 w2.
  assert (NoDup (map id ([a] ++ b :: [c]))) as Hnd by by_decide.
  assert (forEach (λ c, setCommandStatus (id c) pending) ([a] ++ b :: [c]) w
          = (Resolved tt, w0)) as H0 by (vm_compute; reflexivity).
  assert (runLoop false [a] w0 = (Resolved false, w1)) as H1
    by (vm_compute; reflexivity).
  assert (runCommand b w1 = (Resolved false, w2)) as H2
    by (vm_compute; reflexivity).
  split; [exact Hnd|]. split; [exact H0|]. split; [exact H1|]. split; [exact H2|].
  destruct (runCommands_failure [a] [c] b w w0 w1 w2 Hnd H0 H1 H2)
    as (w' & E & _ & Ht & Hpre & Hk & Hpost & _).
  exists w'. split; [exact E|]. split; [by rewrite Ht|].
  split; [apply Hpre; by_decide|]. split; [exact Hk|apply Hpost; by_decide].
Defined.

Lemma runCommand_inserts_mocks_before_witness :
  let w := world capturing tt [a; X; b] true in
  let w' := (runCommand X w).2 in
  isMockGenerationEnabled w = true ∧
  commands (repl w) = [a] ++ X :: [b] ∧
  id X = id X ∧
  (id X ∉ map id [a]) ∧
  runCommand X w = (Resolved true, w') ∧
  ∃ mocks,
    Forall (λ m, status m = success) mocks ∧
    commands (repl w') = [a] ++ mocks ++ withStatus success X :: [b] ∧
    map yaml mocks = ["runScript: m1.js"; "runScript: m2.js"].
Proof.
  intros w w'.
  assert (id X ∉ map id [a]) as Hpre by by_decide.
  assert (runCommand X w = (Resolved true, w')) as Hrun
    by (vm_compute; reflexivity).
  split; [reflexivity|]. split; [reflexivity|]. split; [reflexivity|].
  split; [exact Hpre|]. split; [exact Hrun|].
  destruct (runCommand_inserts_mocks_before X X [a] [b] w w'
              eq_refl eq_refl eq_refl Hpre Hrun)
    as (w1 & w2 & mocks & E1 & E2 & Hs & Hq & _ & Hrec).
  exists mocks. split; [exact Hs|]. split; [exact Hq|].
  destruct (Hrec twoRecords (call_getMock w1).2 [record "m1.js"; record "m2.js"])
    as (yss & HF & Hy).
  { injection E1 as <-. reflexivity. }
  { reflexivity. }
  rewrite Hy.
  inversion HF as [|? ys1 ? yss1 Hr1 HF1]; subst.
  inversion HF1 as [|? ys2 ? yss2 Hr2 HF2]; subst.
  inversion HF2; subst.
  injection Hr1 as <-. injection Hr2 as <-. reflexivity.
Defined.

(** C1 as stated fails: the two commands built from the capture records
    are inserted at the position the command had (index 1), in front of
    it, and not after it (index 2). *)
Lemma mocks_not_after_command :
  let w := world capturing tt [a; X; b] true in
  let w' := (runCommand X w).2 in
  runCommand X w = (Resolved true, w') ∧
  findIndex (λ c, String.eqb (id c) (id X)) (commands (repl w)) = 1%Z ∧
  commands (repl w') = [a; m1; m2; withStatus success X; b] ∧
  ¬ splicedAt 2 [m1; m2] (commands (repl w)) (commands (repl w')).
Proof.
  intros w w'.
  split; [vm_compute; reflexivity|]. split; [reflexivity|].
  split; [vm_compute; reflexivity|].
  unfold splicedAt. vm_compute. intros H. discriminate H.
Qed.


Lemma runCommandIds_queue_order_witness :
  let w := world capturing tt [a; b; c] false in
  let w0 := (forEach (λ c, setCommandStatus (id c) pending) [a; c] w).2 in
  let wa := (runCommand a w0).2 in
  let wc := (runCommand c wa).2 in
  let v := world (rejecting "tapOn: b" false) tt [a; b; c] false in
  let v0 := (forEach (λ c, setCommandStatus (id c) pending) [a; b; c] v).2 in
  let va := (runCommand a v0).2 in
  let vb := (runCommand b va).2 in
  (selectCommands ["c"; "a"] (repl w) = [a; c] ∧
   allSucceed [a; c] w0 wc ∧
   runCommandIds ["c"; "a"] w = (Resolved true, wc) ∧
   dispatched (api_trace wc) = ["tapOn: a"; "tapOn: c"]) ∧
  (selectCommands ["c"; "b"; "a"] (repl v) = [a] ++ b :: [c] ∧
   allSucceed [a] v0 va ∧
   runCommand b va = (Resolved false, vb) ∧
   ∃ v', runCommandIds ["c"; "b"; "a"] v = (Resolved false, v') ∧
     dispatched (api_trace v') = ["tapOn: a"; "tapOn: b"]).
Proof.
  intros w w0 wa wc v v0 va vb. split.
  - assert (selectCommands ["c"; "a"] (repl w) = [a; c]) as Hsel
      by (vm_compute; reflexivity).
    assert (allSucceed [a; c] w0 wc) as Hall.
    { exists wa. split; [vm_compute; reflexivity|].
      exists wc. split; [vm_compute; reflexivity|reflexivity]. }
    split; [exact Hsel|]. split; [exact Hall|].
    destruct (runCommandIds_queue_order ["c"; "a"] w)
      as (_ & _ & _ & _ & Hok & _ & _).
    destruct (Hok wc Hall) as [E Ht]. split; [exact E|]. by rewrite Ht.
  - assert (selectCommands ["c"; "b"; "a"] (repl v) = [a] ++ b :: [c]) as Hsel
      by (vm_compute; reflexivity).
    assert (allSucceed [a] v0 va) as Hall.
    { exists va. split; [vm_compute; reflexivity|reflexivity]. }
    assert (runCommand b va = (Resolved false, vb)) as Hb
      by (vm_compute; reflexivity).
    split; [exact Hsel|]. split; [exact Hall|]. split; [exact Hb|].
    destruct (runCommandIds_queue_order ["c"; "b"; "a"] v)
      as (_ & _ & _ & _ & _ & Hfail & _).
    destruct (Hfail [a] b [c] va vb Hsel Hall Hb) as (v' & E & Ht & _).
    exists v'. split; [exact E|]. by rewrite Ht.
Defined.

Lemma restore_persisted_witness :
  let r := {| commands := [a] |} in
  JSON_parse (JSON_stringify (replToJs r)) = Resolved (replToJs r) ∧
  JSON_stringify (replToJs r) ≠ "" ∧
  restoreRepl (Some (persist r)) = Resolved (replToJs r) ∧
  replOfJs (replToJs r) = Some r.
Proof.
  intros r.
  assert (JSON_parse (JSON_stringify (replToJs r)) = Resolved (replToJs r))
    as Hround by (vm_compute; reflexivity).
  assert (JSON_stringify (replToJs r) ≠ "") as Hne
    by (vm_compute; discriminate).
  split; [exact Hround|]. split; [exact Hne|].
  destruct (restore_persisted (client:=capturing) r Hround Hne) as (_ & Hres & Hof).
  split; [exact Hres|exact Hof].
Defined.

Lemma restoreRepl_payload_stays_missing_witness :
  savedNoYaml ≠ "" ∧
  JSON_parse savedNoYaml
  = Resolved (JObj [("commands",
                     JArr [JObj [("id", JStr "a"); ("status", JStr "pending")]])]) ∧
  ∃ entries',
    restoreRepl (Some savedNoYaml) = Resolved (JObj [("commands", JArr entries')]) ∧
    entries' = [JObj [("id", JStr "a"); ("status", JStr "pending")]].
Proof.
  assert (savedNoYaml ≠ "") as Hne by (vm_compute; discriminate).
  assert (JSON_parse savedNoYaml
          = Resolved (JObj [("commands",
                             JArr [JObj [("id", JStr "a");
                                         ("status", JStr "pending")]])]))
    as Hparse by reflexivity.
  split; [exact Hne|]. split; [exact Hparse|].
  destruct (restoreRepl_payload_stays_missing savedNoYaml _ Hne Hparse)
    as ((entries' & E & _ & Hplain) & _).
  exists entries'. split; [exact E|]. by apply Hplain.
Defined.

(** C5 as stated fails: the stored entry without a payload is restored
    without one, not with an empty payload. *)
Lemma missing_payload_not_normalised :
  restoreRepl (Some savedNoYaml)
  = Resolved (JObj [("commands",
                     JArr [JObj [("id", JStr "a"); ("status", JStr "pending")]])]) ∧
  hasNoProp "yaml" (JObj [("id", JStr "a"); ("status", JStr "pending")]) ∧
  ¬ emptyPayload (JObj [("id", JStr "a"); ("status", JStr "pending")]).
Proof.
  split; [vm_compute; reflexivity|]. split; [cbn; compute_done|].
  unfold emptyPayload. cbn. by intros [|].
Qed.

End Runs.

(** * The further properties on concrete runs *)

Section MoreRuns.
Import Demo Fixtures.
#[local] Existing Instance demoLibraries.

Lemma deleteCommands_spec_witness :
  ∃ w', deleteCommands ["b"; "z"] (world capturing tt [a; b; c] false)
        = (Resolved tt, w') ∧
    sublist (commands (repl w')) [a; b; c] ∧
    NoDup (map id (commands (repl w'))).
Proof.
  destruct (deleteCommands_spec (client:=capturing) ["b"; "z"]
              (world capturing tt [a; b; c] false))
    as (w' & E & Hsub & _ & _ & Hnd).
  exists w'. split; [exact E|]. split; [exact Hsub|].
  apply Hnd. compute_done.
Defined.

Lemma reorderCommands_permutation_witness :
  NoDup (map id [a; b; c]) ∧
  NoDup ["c"; "a"] ∧
  ∃ w', reorderCommands ["c"; "a"] (world capturing tt [a; b; c] false)
        = (Resolved tt, w') ∧
    commands (repl w') ≡ₚ [a; b; c].
Proof.
  assert (NoDup (map id [a; b; c])) as Hq by compute_done.
  assert (NoDup ["c"; "a"]) as Hids by compute_done.
  split; [exact Hq|]. split; [exact Hids|].
  destruct (reorderCommands_permutation (client:=capturing) ["c"; "a"]
              (world capturing tt [a; b; c] false) Hq Hids)
    as (w' & E & Hperm & _).
  exists w'. split; [exact E|exact Hperm].
Defined.

Lemma reorderCommands_repeated_id_witness :
  NoDup (map id [a; b; c]) ∧
  (b ∈ [a; b; c]) ∧
  ∃ w', reorderCommands ([] ++ id b :: [] ++ id b :: [])
          (world capturing tt [a; b; c] false)
        = (Resolved tt, w') ∧
    ¬ NoDup (map id (commands (repl w'))).
Proof.
  assert (NoDup (map id [a; b; c])) as Hq by compute_done.
  assert (b ∈ [a; b; c]) as Hb by compute_done.
  split; [exact Hq|]. split; [exact Hb|].
  destruct (reorderCommands_repeated_id (client:=capturing) [] [] [] b
              (world capturing tt [a; b; c] false) Hq Hb)
    as (w' & E & _ & Hdup).
  exists w'. split; [exact E|exact Hdup].
Defined.

Lemma insertMocks_updater_spec_witness :
  (id X ∉ map id [a; b]) ∧
  commands (insertMocks_updater X [m1; m2] {| commands := [a; b] |})
  = [m2] ++ take 1 [a; b] ++ m1 :: drop 1 [a; b].
Proof.
  assert (id X ∉ map id [a; b]) as Habs by compute_done.
  split; [exact Habs|].
  destruct (insertMocks_updater_spec X [m1; m2] {| commands := [a; b] |})
    as (_ & _ & _ & Hq).
  exact (Hq Habs).
Defined.



Lemma runCommands_without_mocks_witness :
  let w := world capturing tt [a; b; c] false in
  isMockGenerationEnabled w = false ∧
  ∃ ok w', runCommands [a; c] w = (Resolved ok, w') ∧
    map id (commands (repl w')) = ["a"; "b"; "c"] ∧
    (ok = true → api_trace w' = flushedRuns [a; c]).
Proof.
  intros w. split; [reflexivity|].
  destruct (runCommands_without_mocks [a; c] w eq_refl)
    as (ok & w' & E & Hi & _ & _ & _ & Ht).
  exists ok, w'. split; [exact E|]. split; [by rewrite Hi|exact Ht].
Defined.

Lemma runCommands_true_witness :
  let w := world capturing tt [a; b; c] true in
  let w' := (runCommands [a; c] w).2 in
  NoDup (map id [a; c]) ∧
  runCommands [a; c] w = (Resolved true, w') ∧
  dispatched (api_trace w') = ["tapOn: a"; "tapOn: c"] ∧
  allNamed "a" success (commands (repl w')) ∧
  allNamed "c" success (commands (repl w')).
Proof.
  intros w w'.
  assert (NoDup (map id [a; c])) as Hnd by compute_done.
  assert (runCommands [a; c] w = (Resolved true, w')) as Hrun
    by (vm_compute; reflexivity).
  split; [exact Hnd|]. split; [exact Hrun|].
  destruct (runCommands_true [a; c] w w' Hnd Hrun) as (Ht & Hs & _).
  split; [by rewrite Ht|]. split; apply Hs; compute_done.
Defined.

Lemma runCommandIds_unknown_witness :
  let w := world capturing tt [a; b; c] true in
  (∀ i, i ∈ ["x"; "y"] → i ∉ map id (commands (repl w))) ∧
  runCommandIds ["x"; "y"] w = (Resolved true, w).
Proof.
  intros w.
  assert (∀ i, i ∈ ["x"; "y"] → i ∉ map id (commands (repl w))) as Hids.
  { intros i Hi. apply elem_of_cons in Hi as [->|Hi]; [compute_done|].
    apply elem_of_cons in Hi as [->|Hi]; [compute_done|].
    by apply elem_of_nil in Hi. }
  split; [exact Hids|]. exact (runCommandIds_unknown ["x"; "y"] w Hids).
Defined.

Lemma runCommandYaml_malformed_witness :
  let w := world capturing tt [a] true in
  YAML_parse "" = Rejected SyntaxError ∧
  runCommandYaml "" w = (Rejected SyntaxError, w).
Proof.
  intros w.
  assert (YAML_parse "" = Rejected SyntaxError) as Hparse by reflexivity.
  split; [exact Hparse|]. exact (runCommandYaml_malformed "" SyntaxError w Hparse).
Defined.

Lemma runCommandYaml_accepted_witness :
  let w := world capturing tt [a] false in
  let text := "[tapOn: a, tapOn: b]" in
  let cmds := [cmd "uuid-0" pending "tapOn: a"; cmd "uuid-1" pending "tapOn: b"] in
  let w1 := (parseCommands text w).2 in
  let w2 := (forEach (λ c, call_runCommand (yaml c) true) cmds w1).2 in
  let w3 := (setRepl (appendCommands_updater cmds) w2).2 in
  parseCommands text w = (Resolved cmds, w1) ∧
  forEach (λ c, call_runCommand (yaml c) true) cmds w1 = (Resolved tt, w2) ∧
  runCommandYaml text w = runCommands cmds w3 ∧
  commands (repl w3) = [a] ++ cmds.
Proof.
  intros w text cmds w1 w2 w3.
  assert (parseCommands text w = (Resolved cmds, w1)) as H1
    by (vm_compute; reflexivity).
  assert (forEach (λ c, call_runCommand (yaml c) true) cmds w1 = (Resolved tt, w2))
    as H2 by (vm_compute; reflexivity).
  split; [exact H1|]. split; [exact H2|].
  destruct (runCommandYaml_accepted text cmds w w1 w2 H1 H2) as (E & Hq & _).
  split; [exact E|exact Hq].
Defined.

Lemma runGetMocks_one_per_record_witness :
  let w := world capturing tt [a] true in
  let records := [record "m1.js"; record "m2.js"] in
  call_getMock w = (Resolved twoRecords, (call_getMock w).2) ∧
  JSON_parse twoRecords = Resolved (JArr records) ∧
  Forall (λ item, ∃ r p, mockResult item = Resolved r ∧
                         YAML_parse (YAML_stringify r) = Resolved p ∧
                         isArray p = false) records ∧
  ∃ mocks w2, runGetMocks w = (Resolved mocks, w2) ∧ length mocks = 2.
Proof.
  intros w records.
  assert (JSON_parse twoRecords = Resolved (JArr records)) as Hparse
    by reflexivity.
  assert (Forall (λ item, ∃ r p, mockResult item = Resolved r ∧
                                 YAML_parse (YAML_stringify r) = Resolved p ∧
                                 isArray p = false) records) as Hall.
  { repeat constructor; eexists _, _; (split; [reflexivity|]);
      (split; [vm_compute; reflexivity|reflexivity]). }
  split; [reflexivity|]. split; [exact Hparse|]. split; [exact Hall|].
  destruct (runGetMocks_one_per_record w (call_getMock w).2 twoRecords records
              eq_refl Hparse Hall) as (mocks & w2 & E & Hlen & _).
  exists mocks, w2. split; [exact E|exact Hlen].
Defined.

Lemma restoreRepl_plain_witness :
  savedOne ≠ "" ∧
  restoreRepl (Some savedOne) = Resolved (replToJs {| commands := [a] |}).
Proof.
  assert (savedOne ≠ "") as Hne by (vm_compute; discriminate).
  split; [exact Hne|].
  destruct (restoreRepl_plain savedOne Hne) as [Hplain _].
  apply Hplain; reflexivity.
Defined.

End MoreRuns.

Section FixtureRuns.
Import Demo Fixtures.
#[local] Existing Instance fixtureLibraries.


Lemma restoreRepl_falsy_command_witness :
  savedFalsyCommand ≠ "" ∧
  JSON_parse savedFalsyCommand
  = Resolved (JObj (("command", JNull) :: [("commands", JArr [])])) ∧
  JNull ≠ JUndefined ∧
  truthy JNull = false ∧
  plain (JObj [("commands", JArr [])]) = true ∧
  restoreRepl (Some savedFalsyCommand)
  = Resolved (JObj [("command", JArr []); ("commands", JArr [])]).
Proof.
  assert (savedFalsyCommand ≠ "") as Hne by (vm_compute; discriminate).
  assert (JSON_parse savedFalsyCommand
          = Resolved (JObj (("command", JNull) :: [("commands", JArr [])])))
    as Hparse by reflexivity.
  assert (JNull ≠ JUndefined) as Hu by discriminate.
  split; [exact Hne|]. split; [exact Hparse|]. split; [exact Hu|].
  split; [reflexivity|]. split; [reflexivity|].
  exact (restoreRepl_falsy_command savedFalsyCommand JNull [("commands", JArr [])]
           Hne Hparse Hu eq_refl eq_refl).
Defined.

Lemma runCommandYaml_empty_list_witness :
  YAML_parse "[]" = Resolved (JArr []) ∧
  ∃ w', runCommandYaml "[]" (worldAt capturing tt [k0; k1] true 2)
        = (Resolved true, w') ∧
    commands (repl w') = [k0; k1] ∧
    api_trace w' = [].
Proof.
  assert (YAML_parse "[]" = Resolved (JArr [])) as Hparse by reflexivity.
  split; [exact Hparse|].
  destruct (runCommandYaml_empty_list "[]" (worldAt capturing tt [k0; k1] true 2)
              Hparse) as (w' & E & Hq & Ht & _).
  exists w'. split; [exact E|]. split; [by rewrite Hq|by rewrite Ht].
Defined.

Lemma indexKey_inj (n m : nat) : indexKey n = indexKey m → n = m.
Proof.
  unfold indexKey. intros H.
  pose proof (f_equal NilEmpty.uint_of_string H) as H'.
  rewrite !NilEmpty.usu in H'. injection H' as H'.
  by apply DecimalNat.Unsigned.to_uint_inj.
Qed.

Lemma wellKeyed_two :
  wellKeyed (worldAt Demo.capturing tt [k0; k1] true 2).
Proof.
  split; [compute_done|]. intros i Hi.
  apply elem_of_cons in Hi as [->|Hi]; [exists 0; split; [simpl; lia|reflexivity]|].
  apply elem_of_cons in Hi as [->|Hi]; [exists 1; split; [simpl; lia|reflexivity]|].
  by apply elem_of_nil in Hi.
Qed.

Lemma wellKeyed_run_witness :
  (∀ n m, uuidv4 n = uuidv4 m → n = m) ∧
  wellKeyed (worldAt capturing tt [k0; k1] true 2) ∧
  wellKeyed (runCommandYaml "[tapOn: a, tapOn: b]"
               (worldAt capturing tt [k0; k1] true 2)).2 ∧
  wellKeyed (runCommandIds ["1"] (worldAt capturing tt [k0; k1] true 2)).2.
Proof.
  split; [exact indexKey_inj|]. split; [exact wellKeyed_two|].
  destruct (wellKeyed_run (client:=capturing) (libs:=fixtureLibraries)
              indexKey_inj _ wellKeyed_two) as [Hsubmit Hrun].
  split; [apply Hsubmit|apply Hrun].
Defined.

Lemma wellKeyed_edit_witness :
  wellKeyed (worldAt capturing tt [k0; k1] true 2) ∧
  NoDup ["1"; "0"] ∧
  wellKeyed (deleteCommands ["0"] (worldAt capturing tt [k0; k1] true 2)).2 ∧
  wellKeyed (reorderCommands ["1"; "0"] (worldAt capturing tt [k0; k1] true 2)).2.
Proof.
  assert (NoDup ["1"; "0"]) as Hids by compute_done.
  split; [exact wellKeyed_two|]. split; [exact Hids|].
  destruct (wellKeyed_edit ["1"; "0"] _ wellKeyed_two) as [_ Hreorder].
  destruct (wellKeyed_edit ["0"] _ wellKeyed_two) as [Hdelete _].
  split; [exact Hdelete|exact (Hreorder Hids)].
Defined.

End FixtureRuns.

Section ToggleRuns.
Import Toggle.

Lemma toggle_disabled_silent_witness :
  let s := mount {| checked := true; disabled := true; onChangeGiven := true |} in
  let events :=
    [Click;
     Render {| checked := false; disabled := true; onChangeGiven := true |};
     Click] in
  disabled (props s) = true ∧
  Forall staysDisabled events ∧
  notified (run s events) = [].
Proof.
  intros s events.
  assert (Forall staysDisabled events) as Hall by (repeat constructor).
  split; [reflexivity|]. split; [exact Hall|].
  destruct (toggle_disabled_silent s events eq_refl Hall) as [Hn _].
  exact Hn.
Defined.

Lemma toggle_shows_known_value_witness :
  let p := {| checked := false; disabled := false; onChangeGiven := true |} in
  let events :=
    [Click;
     Render {| checked := true; disabled := false; onChangeGiven := true |};
     Click] in
  onChangeGiven p = true ∧
  Forall passesOnChange events ∧
  known (run (mount p) events).
Proof.
  intros p events.
  assert (Forall passesOnChange events) as Hall by (repeat constructor).
  split; [reflexivity|]. split; [exact Hall|].
  exact (toggle_shows_known_value p events eq_refl Hall).
Defined.

End ToggleRuns.
